(** * mvs-udp-server: zero-suppression codec and wire codec

    A shallow embedding of [src/compression.cpp] and [src/serialization.cpp]
    together with the properties the specification states about them.

    Conventions of the embedding.
    - A [uint8_t] buffer ([std::span<const uint8_t>], [std::vector<uint8_t>])
      is a [list Z]; an index or a [size_t] position that only ever counts
      up to a buffer size is a [nat].
    - A C++ [throw std::runtime_error(msg)] is [Throw msg].  An operation
      whose behaviour C++ leaves undefined (an unchecked [operator[]] past
      the end, signed overflow, a float-to-integer cast out of range) is
      [Undefined] with the reason: the embedding is total and makes these
      branches visible instead of picking a behaviour for them.
    - A vector written by index is updated with stdpp's [<[i:=v]>].  In
      [compression.cpp] every such write sits behind the [>= 1024] test of
      the source on a 1024-byte vector; in [serialization.cpp] the writes
      and the single-byte reads have no test, and go through [store] and
      [at_index], which are [Undefined] past the end.
    - The loops that need it take a [fuel] argument that only makes the
      recursion structural; lemmas show that the fuel given is enough. *)

From Stdlib Require Import ZArith Lia.
From Stdlib Require Import Floats.SpecFloat.
From stdpp Require Import base tactics option list numbers strings.

Local Open Scope Z_scope.

(** ** Results of a C++ call *)

Inductive ub : Type :=
| OutOfBounds (index size : nat)
| SignedOverflow
| FloatToIntRange.

Inductive result (A : Type) : Type :=
| Ok (a : A)
| Throw (msg : string)
| Undefined (why : ub).
Arguments Ok {A} a.
Arguments Throw {A} msg.
Arguments Undefined {A} why.

Global Instance result_ret : MRet result := fun A a => Ok a.
Global Instance result_bind : MBind result := fun A B f m =>
  match m with
  | Ok a => f a
  | Throw msg => Throw msg
  | Undefined why => Undefined why
  end.

(** Unchecked element access [v[i]]: past the end it is undefined. *)
Definition at_index {A : Type} (v : list A) (i : nat) : result A :=
  match v !! i with
  | Some b => Ok b
  | None => Undefined (OutOfBounds i (length v))
  end.

(** Unchecked element store [v[i] = x]. *)
Definition store (v : list Z) (i : nat) (x : Z) : result (list Z) :=
  if decide (i < length v)%nat then Ok (<[i:=x]> v)
  else Undefined (OutOfBounds i (length v)).

(** Fixed-width integer conversions. *)
Definition to_u8 (z : Z) : Z := z mod 2 ^ 8.
Definition to_size_t (z : Z) : Z := z mod 2 ^ 64.
Definition INT_MIN : Z := - 2 ^ 31.
Definition INT_MAX : Z := 2 ^ 31 - 1.
(** [static_cast<int>] of an unsigned value: modular. *)
Definition to_int (z : Z) : Z := (z + 2 ^ 31) mod 2 ^ 32 - 2 ^ 31.
(** [int * int]: overflow is undefined. *)
Definition int_mul (a b : Z) : result Z :=
  if decide (INT_MIN <= a * b <= INT_MAX) then Ok (a * b)
  else Undefined SignedOverflow.

(** The values [0 .. 7] taken by the [uint8_t bit] loop counters. *)
Definition bits_from (b : Z) : list Z := seqZ b (8 - b).
Definition bit_range (bits : list Z) : Prop := Forall (λ b, 0 <= b < 8) bits.

(** ** compression.cpp *)

Module Compression.

Definition MAX_SIZE : nat := 1024.

Definition overflow_msg : string :=
  "compressPacket: output buffer overflow (1024 bytes)".

(** State of the compression loops: [outBuf], [inPos], [outPos]. *)
Record cstate : Type := CState {
  c_outBuf : list Z;
  c_inPos : nat;
  c_outPos : nat
}.

(** The inner loop
    [for (bit = 0; bit < 8 && inPos < n; ++bit, ++inPos)];
    [bits] are the values [bit] still has to take. *)
Fixpoint pack_bits (input : list Z) (bits : list Z) (st : cstate) (mask : Z)
  : result (cstate * Z) :=
  match bits with
  | [] => Ok (st, mask)
  | bit :: bits' =>
      match input !! c_inPos st with
      | None => Ok (st, mask)                      (* inPos >= n *)
      | Some v =>
          if decide (v = 0) then
            pack_bits input bits'
              (CState (c_outBuf st) (S (c_inPos st)) (c_outPos st)) mask
          else
            let mask' := to_u8 (Z.lor mask (Z.shiftl 1 bit)) in
            if decide (MAX_SIZE <= c_outPos st)%nat then Throw overflow_msg
            else
              pack_bits input bits'
                (CState (<[c_outPos st := v]> (c_outBuf st))
                        (S (c_inPos st)) (S (c_outPos st))) mask'
      end
  end.

(** The outer loop [while (inPos < n)].  Every round consumes at least
    one input byte, so [length input] rounds always suffice; [fuel] only
    makes the recursion structural. *)
Fixpoint compress_loop (fuel : nat) (input : list Z) (st : cstate)
  : result cstate :=
  if decide (c_inPos st < length input)%nat then
    match fuel with
    | O => Ok st                     (* not reached: compress_loop_spec *)
    | S fuel' =>
        if decide (MAX_SIZE <= c_outPos st)%nat then Throw overflow_msg
        else
          let maskPos := c_outPos st in
          '(st', mask) ← pack_bits input (bits_from 0)
              (CState (c_outBuf st) (c_inPos st) (S (c_outPos st))) 0;
          compress_loop fuel' input
            (CState (<[maskPos := mask]> (c_outBuf st'))
                    (c_inPos st') (c_outPos st'))
    end
  else Ok st.

Definition compressPacket (input : list Z) : result (list Z) :=
  let n := length input in
  if decide (n = 0)%nat then Ok []
  else
    st ← compress_loop n input (CState (replicate MAX_SIZE 0) 0 0);
    Ok (resize (c_outPos st) 0 (c_outBuf st)).

Definition bad_length_msg : string :=
  "decompressPacket: originalLength must be between 0 and 1024".
Definition unexpected_end_msg : string :=
  "decompressPacket: unexpected end of compressed data".
Definition truncated_msg : string :=
  "decompressPacket: truncated compressed data".
Definition d_overflow_msg : string :=
  "decompressPacket: output buffer overflow (1024 bytes)".

(** State of the decompression loops: [outBuf], [readPos], [writePos]. *)
Record dstate : Type := DState {
  d_outBuf : list Z;
  d_readPos : nat;
  d_writePos : nat
}.

(** The inner loop
    [for (bit = 0; bit < 8 && writePos < originalLength; ++bit)]. *)
Fixpoint unpack_bits (compressedBuffer : list Z) (originalLength : nat)
    (mask : Z) (bits : list Z) (st : dstate) : result dstate :=
  match bits with
  | [] => Ok st
  | bit :: bits' =>
      if decide (d_writePos st < originalLength)%nat then
        let isNonZero := bool_decide (Z.land mask (Z.shiftl 1 bit) ≠ 0) in
        if isNonZero then
          if decide (length compressedBuffer <= d_readPos st)%nat
          then Throw truncated_msg
          else if decide (MAX_SIZE <= d_writePos st)%nat
          then Throw d_overflow_msg
          else
            v ← at_index compressedBuffer (d_readPos st);
            unpack_bits compressedBuffer originalLength mask bits'
              (DState (<[d_writePos st := v]> (d_outBuf st))
                      (S (d_readPos st)) (S (d_writePos st)))
        else
          if decide (MAX_SIZE <= d_writePos st)%nat
          then Throw d_overflow_msg
          else
            unpack_bits compressedBuffer originalLength mask bits'
              (DState (<[d_writePos st := 0]> (d_outBuf st))
                      (d_readPos st) (S (d_writePos st)))
      else Ok st
  end.

(** The outer loop
    [while (readPos < compressedBuffer.size() && writePos < originalLength)].
    Every round reads one mask byte, so [length compressedBuffer] rounds
    always suffice. *)
Fixpoint decompress_loop (fuel : nat) (compressedBuffer : list Z)
    (originalLength : nat) (st : dstate) : result dstate :=
  if decide (d_readPos st < length compressedBuffer
             ∧ d_writePos st < originalLength)%nat then
    match fuel with
    | O => Ok st                     (* not reached: decompress_loop_fuel *)
    | S fuel' =>
        if decide (length compressedBuffer <= d_readPos st)%nat
        then Throw unexpected_end_msg
        else
          mask ← at_index compressedBuffer (d_readPos st);
          st' ← unpack_bits compressedBuffer originalLength mask (bits_from 0)
                  (DState (d_outBuf st) (S (d_readPos st)) (d_writePos st));
          decompress_loop fuel' compressedBuffer originalLength st'
    end
  else Ok st.

Definition decompressPacket (compressedBuffer : list Z) (originalLength : nat)
  : result (list Z) :=
  if decide (MAX_SIZE < originalLength)%nat then Throw bad_length_msg
  else
    st ← decompress_loop (length compressedBuffer) compressedBuffer
           originalLength (DState (replicate MAX_SIZE 0) 0 0);
    Ok (resize originalLength 0 (d_outBuf st)).

End Compression.

Import Compression.

(** ** message_types.h *)

Inductive ClientMessageType : Type :=
| NewConnection | Input | PlayerInputAck | MatchResult
| QualityData | Disconnecting | PlayerDisconnectedAck | ReadyToStartMatch.

(** The enumerator a type byte denotes, if any ([enum class : uint8_t]
    with values 1 to 8). *)
Definition client_type_of (b : Z) : option ClientMessageType :=
  match b with
  | 1 => Some NewConnection
  | 2 => Some Input
  | 3 => Some PlayerInputAck
  | 4 => Some MatchResult
  | 5 => Some QualityData
  | 6 => Some Disconnecting
  | 7 => Some PlayerDisconnectedAck
  | 8 => Some ReadyToStartMatch
  | _ => None
  end.

Inductive ServerMessageType : Type :=
| NewConnectionReply | StartGame | InputAck | PlayerInput
| RequestQualityData | PlayersStatus | Kick | ChecksumAck
| PlayersConfigurationData | PlayerDisconnected | ChangePort.

Definition server_type_value (t : ServerMessageType) : Z :=
  match t with
  | NewConnectionReply => 1
  | StartGame => 2
  | InputAck => 3
  | PlayerInput => 4
  | RequestQualityData => 6
  | PlayersStatus => 7
  | Kick => 8
  | ChecksumAck => 9
  | PlayersConfigurationData => 10
  | PlayerDisconnected => 11
  | ChangePort => 12
  end.

(** Each struct is a record in a module of its name, so that the fields
    keep the names they have in the header. *)

Module ClientHeader.
Record t : Type := mk { type : ClientMessageType; sequence : Z }.
End ClientHeader.

Module ServerHeader.
Record t : Type := mk { type : ServerMessageType; sequence : Z }.
End ServerHeader.

Module ClientPlayerConfigData.
Record t : Type := mk { teamId : Z; playerIndex : Z }.
End ClientPlayerConfigData.

Module ClientMatchData.
Record t : Type := mk {
  matchId : list Z; key : list Z; environmentId : list Z }.
End ClientMatchData.

Module NewConnectionPayload.
Record t : Type := mk {
  messageVersion : Z;
  playerData : ClientPlayerConfigData.t;
  matchData : ClientMatchData.t }.
End NewConnectionPayload.

Module InputPayload.
Record t : Type := mk {
  startFrame : Z; clientFrame : Z; numFrames : Z; numChecksums : Z;
  inputPerFrame : list Z; checksumPerFrame : list Z }.
End InputPayload.

Module PlayerInputAckPayload.
Record t : Type := mk {
  numPlayers : Z; ackFrame : list Z; serverMessageSequenceNumber : Z }.
End PlayerInputAckPayload.

Module MatchResultPayload.
Record t : Type := mk {
  numPlayers : Z; lastFrameChecksum : Z; winningTeamIndex : Z }.
End MatchResultPayload.

Module QualityDataPayload.
Record t : Type := mk { serverMessageSequenceNumber : Z }.
End QualityDataPayload.

Module DisconnectingPayload.
Record t : Type := mk { reason : Z }.
End DisconnectingPayload.

Module PlayerDisconnectedAckPayload.
Record t : Type := mk { playerDisconnectedArrayIndex : Z }.
End PlayerDisconnectedAckPayload.

Module ReadyToStartMatchPayload.
Record t : Type := mk { ready : Z }.
End ReadyToStartMatchPayload.

Module NewConnectionReplyPayload.
Record t : Type := mk {
  success : Z; matchNumPlayers : Z; playerIndex : Z;
  matchDurationInFrames : Z; unknown : Z; isValidationServerDebugMode : Z }.
End NewConnectionReplyPayload.

Module InputAckPayload.
Record t : Type := mk { ackFrame : Z }.
End InputAckPayload.

Module PlayerInputPayload.
Record t : Type := mk {
  numPlayers : Z;
  startFrame : list Z;
  numFrames : list Z;
  numPredictedOverrides : Z;
  numZeroedOverrides : Z;
  ping : Z;
  packetsLossPercent : Z;
  rift : spec_float;                 (* [float], IEEE 754 binary32 *)
  checksumAckFrame : Z;
  inputPerFrame : list (list Z) }.
End PlayerInputPayload.

Module RequestQualityDataPayload.
Record t : Type := mk { ping : Z; packetsLossPercent : Z }.
End RequestQualityDataPayload.

Module PlayerStatusData.
Record t : Type := mk { averagePing : Z }.
End PlayerStatusData.

Module PlayersStatusPayload.
Record t : Type := mk { numPlayers : Z; status : list PlayerStatusData.t }.
End PlayersStatusPayload.

Module KickPayload.
Record t : Type := mk { reason : Z; param1 : Z }.
End KickPayload.

Module ChecksumAckPayload.
Record t : Type := mk { ackFrame : Z }.
End ChecksumAckPayload.

Module PlayersConfigurationDataPayload.
Record t : Type := mk { numPlayers : Z; configValues : list Z }.
End PlayersConfigurationDataPayload.

Module PlayerDisconnectedPayload.
Record t : Type := mk {
  playerIndex : Z; shouldAITakeControl : Z;
  AITakeControlFrame : Z; playerDisconnectedArrayIndex : Z }.
End PlayerDisconnectedPayload.

Module ChangePortPayload.
Record t : Type := mk { port : Z }.
End ChangePortPayload.

(** ** serialization.h *)

Inductive ClientMessageVariant : Type :=
| C_NewConnection (p : NewConnectionPayload.t)
| C_Input (p : InputPayload.t)
| C_PlayerInputAck (p : PlayerInputAckPayload.t)
| C_MatchResult (p : MatchResultPayload.t)
| C_QualityData (p : QualityDataPayload.t)
| C_Disconnecting (p : DisconnectingPayload.t)
| C_PlayerDisconnectedAck (p : PlayerDisconnectedAckPayload.t)
| C_ReadyToStartMatch (p : ReadyToStartMatchPayload.t).

Inductive ServerMessageVariant : Type :=
| S_NewConnectionReply (p : NewConnectionReplyPayload.t)
| S_InputAck (p : InputAckPayload.t)
| S_PlayerInput (p : PlayerInputPayload.t)
| S_RequestQualityData (p : RequestQualityDataPayload.t)
| S_PlayersStatus (p : PlayersStatusPayload.t)
| S_Kick (p : KickPayload.t)
| S_ChecksumAck (p : ChecksumAckPayload.t)
| S_PlayersConfigurationData (p : PlayersConfigurationDataPayload.t)
| S_PlayerDisconnected (p : PlayerDisconnectedPayload.t)
| S_ChangePort (p : ChangePortPayload.t)
| S_monostate.

Module ClientMessageComplete.
Record t : Type := mk {
  header : ClientHeader.t; payload : ClientMessageVariant }.
End ClientMessageComplete.

(** ** serialization.cpp: parsing *)

Module Parse.

(** [readLittleEndian<T>] with [sizeof(T) = sizeofT]: bytes past the end
    of the buffer are skipped.  [i] is the loop counter, [count] the
    rounds left. *)
Fixpoint readLittleEndian_loop (sizeofT : nat) (buffer : list Z)
    (offset i count : nat) (value : Z) : Z :=
  match count with
  | O => value
  | S count' =>
      let value' :=
        match buffer !! (offset + i)%nat with
        | Some b =>
            Z.lor value (Z.shiftl b (Z.of_nat i * 8))
              mod 2 ^ (8 * Z.of_nat sizeofT)
        | None => value
        end in
      readLittleEndian_loop sizeofT buffer offset (S i) count' value'
  end.

Definition readLittleEndian (sizeofT : nat) (buffer : list Z) (offset : nat)
  : Z :=
  readLittleEndian_loop sizeofT buffer offset 0 sizeofT 0.

Definition HEADER_SIZE : nat := 5.

(** The scan of [readString]:
    [while (end < buffer.size() && end < offset + maxLen && buffer[end] != 0)
       end++;]
    with [remaining = offset + maxLen - end]. *)
Fixpoint scan_string (buffer : list Z) (end_ remaining : nat) : nat :=
  match remaining with
  | O => end_
  | S remaining' =>
      match buffer !! end_ with
      | Some b =>
          if decide (b = 0) then end_
          else scan_string buffer (S end_) remaining'
      | None => end_
      end
  end.

(** The lambda [readString]: the string read and the new [offset].  The
    string is the [end - offset] bytes from [offset] on; when [offset] is
    past the end of the buffer that count is zero and no byte is read. *)
Definition readString (buffer : list Z) (offset maxLen : nat)
  : list Z * nat :=
  let end_ := scan_string buffer offset maxLen in
  (take (end_ - offset) (drop offset buffer), (offset + maxLen)%nat).

(** The loops
    [for (uint8_t i = 0; i < count; ++i)
       if (offset + 4 <= buffer.size()) { v.push_back(read32); offset += 4; }] *)
Fixpoint read_words (buffer : list Z) (count : nat) (offset : nat)
    (v : list Z) : list Z * nat :=
  match count with
  | O => (v, offset)
  | S count' =>
      if decide (offset + 4 <= length buffer)%nat then
        read_words buffer count' (offset + 4)
          (v ++ [readLittleEndian 4 buffer offset])
      else read_words buffer count' offset v
  end.

Definition parseClientMessage (buffer : list Z)
  : result (option ClientMessageComplete.t) :=
  if decide (length buffer < HEADER_SIZE)%nat then Ok None
  else
    let offset := 0%nat in
    type_byte ← at_index buffer offset;
    let offset := S offset in
    let sequence := readLittleEndian 4 buffer offset in
    let offset := (offset + 4)%nat in
    let complete ty payload :=
      Ok (Some (ClientMessageComplete.mk (ClientHeader.mk ty sequence)
                                         payload)) in
    match client_type_of type_byte with
    | Some NewConnection =>
        let messageVersion := readLittleEndian 2 buffer offset in
        let offset := (offset + 2)%nat in
        let teamId := readLittleEndian 2 buffer offset in
        let offset := (offset + 2)%nat in
        let playerIndex := readLittleEndian 2 buffer offset in
        let offset := (offset + 2)%nat in
        let '(matchId, offset) := readString buffer offset 25 in
        let '(key, offset) := readString buffer offset 45 in
        let '(environmentId, offset) := readString buffer offset 25 in
        complete NewConnection
          (C_NewConnection
             (NewConnectionPayload.mk messageVersion
                (ClientPlayerConfigData.mk teamId playerIndex)
                (ClientMatchData.mk matchId key environmentId)))
    | Some Input =>
        let startFrame := readLittleEndian 4 buffer offset in
        let offset := (offset + 4)%nat in
        let clientFrame := readLittleEndian 4 buffer offset in
        let offset := (offset + 4)%nat in
        numFrames ← at_index buffer offset;
        let offset := S offset in
        numChecksums ← at_index buffer offset;
        let offset := S offset in
        let '(inputPerFrame, offset) :=
          read_words buffer (Z.to_nat numFrames) offset [] in
        let '(checksumPerFrame, offset) :=
          read_words buffer (Z.to_nat numChecksums) offset [] in
        complete Input
          (C_Input (InputPayload.mk startFrame clientFrame numFrames
                      numChecksums inputPerFrame checksumPerFrame))
    | Some PlayerInputAck =>
        numPlayers ← at_index buffer offset;
        let offset := S offset in
        let '(ackFrame, offset) :=
          read_words buffer (Z.to_nat numPlayers) offset [] in
        let serverMessageSequenceNumber :=
          readLittleEndian 4 buffer offset in
        complete PlayerInputAck
          (C_PlayerInputAck
             (PlayerInputAckPayload.mk numPlayers ackFrame
                serverMessageSequenceNumber))
    | Some MatchResult =>
        numPlayers ← at_index buffer offset;
        let offset := S offset in
        let lastFrameChecksum := readLittleEndian 4 buffer offset in
        let offset := (offset + 4)%nat in
        winningTeamIndex ← at_index buffer offset;
        complete MatchResult
          (C_MatchResult
             (MatchResultPayload.mk numPlayers lastFrameChecksum
                winningTeamIndex))
    | Some QualityData =>
        let serverMessageSequenceNumber :=
          readLittleEndian 4 buffer offset in
        complete QualityData
          (C_QualityData (QualityDataPayload.mk serverMessageSequenceNumber))
    | Some Disconnecting =>
        reason ← at_index buffer offset;
        complete Disconnecting
          (C_Disconnecting (DisconnectingPayload.mk reason))
    | Some PlayerDisconnectedAck =>
        playerDisconnectedArrayIndex ← at_index buffer offset;
        complete PlayerDisconnectedAck
          (C_PlayerDisconnectedAck
             (PlayerDisconnectedAckPayload.mk playerDisconnectedArrayIndex))
    | Some ReadyToStartMatch =>
        ready ← at_index buffer offset;
        complete ReadyToStartMatch
          (C_ReadyToStartMatch (ReadyToStartMatchPayload.mk ready))
    | None => Ok None                       (* default: unknown type *)
    end.

End Parse.

Import Parse.

(** ** serialization.cpp: serialising *)

Module Serialize.

(** [constexpr std::array<uint16_t, 4> PlayerConfigValues]. *)
Definition PlayerConfigValues : list Z := [0; 257; 512; 769].

(** [writeLittleEndian<T>]: [sizeof(T)] unchecked stores of
    [(value >> (i * 8)) & 0xFF]. *)
Fixpoint writeLittleEndian_loop (buffer : list Z) (offset i count : nat)
    (value : Z) : result (list Z) :=
  match count with
  | O => Ok buffer
  | S count' =>
      buffer' ← store buffer (offset + i)
                  (Z.land (Z.shiftr value (Z.of_nat i * 8)) 255);
      writeLittleEndian_loop buffer' offset (S i) count' value
  end.

Definition writeLittleEndian (sizeofT : nat) (buffer : list Z) (offset : nat)
    (value : Z) : result (list Z) :=
  writeLittleEndian_loop buffer offset 0 sizeofT value.

(** The variables [buffer] and [offset] the second visitor captures by
    reference. *)
Record wstate : Type := WState { w_buffer : list Z; w_offset : nat }.

(** [buffer[offset++] = v;] *)
Definition put_u8 (v : Z) (s : wstate) : result wstate :=
  buffer' ← store (w_buffer s) (w_offset s) v;
  Ok (WState buffer' (S (w_offset s))).

(** [writeLittleEndian<T>(buffer, offset, v); offset += sizeof(T);] *)
Definition put_le (sizeofT : nat) (v : Z) (s : wstate) : result wstate :=
  buffer' ← writeLittleEndian sizeofT (w_buffer s) (w_offset s) v;
  Ok (WState buffer' (w_offset s + sizeofT)).

(** A [for] loop over the values [l] of its counter, threading a state. *)
Fixpoint for_each {A S : Type} (body : A → S → result S) (l : list A) (s : S)
  : result S :=
  match l with
  | [] => Ok s
  | x :: l' => s' ← body x s; for_each body l' s'
  end.

(** [i < static_cast<int>(v.size()) ? v[i] : dflt] for an [int i >= 0]. *)
Definition get_or {A : Type} (v : list A) (i : Z) (dflt : A) : result A :=
  if decide (i < to_int (Z.of_nat (length v)))
  then at_index v (Z.to_nat i) else Ok dflt.

(** [size += x] on a [size_t]. *)
Definition size_add (size x : Z) : Z := to_size_t (size + x).

(** *** Floats

    [float] is IEEE 754 binary32: 24 bits of precision, [emax = 128]. *)
Definition float_mul (x y : spec_float) : spec_float := SFmul 24 128 x y.
(** Conversion of an [int] to [float] (the usual arithmetic conversion of
    the [100] in [p.rift * 100]). *)
Definition float_of_int (z : Z) : spec_float :=
  binary_normalize 24 128 z 0 false.
(** The integer part of a float, towards zero. *)
Definition float_trunc (x : spec_float) : option Z :=
  match x with
  | S754_zero _ => Some 0
  | S754_finite s m e =>
      let magnitude := Z.shiftl (Z.pos m) e in
      Some (if s then - magnitude else magnitude)
  | S754_infinity _ | S754_nan => None
  end.
(** [static_cast<int16_t>(x)]: the fractional part is discarded; when the
    result does not fit the behaviour is undefined. *)
Definition float_to_int16 (x : spec_float) : result Z :=
  match float_trunc x with
  | Some t =>
      if decide (- 2 ^ 15 <= t <= 2 ^ 15 - 1) then Ok t
      else Undefined FloatToIntRange
  | None => Undefined FloatToIntRange
  end.

(** *** First visitor: the size of the buffer *)

Definition compute_size (payload : ServerMessageVariant) (maxPlayers : Z)
  : result Z :=
  let size := 5 in
  match payload with
  | S_NewConnectionReply _ => Ok (size_add size 9)
  | S_InputAck _ => Ok (size_add size 4)
  | S_RequestQualityData _ => Ok (size_add size 4)
  | S_PlayerInput p =>
      let size := size_add size 1 in
      m4 ← int_mul maxPlayers 4;
      let size := size_add size m4 in
      let size := size_add size maxPlayers in
      let size := size_add size (2 + 2) in
      let size := size_add size (2 + 2 + 2) in
      let size := size_add size 4 in
      let numFrames := PlayerInputPayload.numFrames p in
      for_each
        (λ i size,
           nf ← at_index numFrames (Z.to_nat i);
           nf4 ← int_mul nf 4;
           Ok (size_add size nf4))
        (seqZ 0 (Z.min maxPlayers (to_int (Z.of_nat (length numFrames)))))
        size
  | S_PlayersStatus _ =>
      let size := size_add size 1 in
      m2 ← int_mul maxPlayers 2;
      Ok (size_add size m2)
  | S_Kick _ => Ok (size_add size (2 + 4))
  | S_ChecksumAck _ => Ok (size_add size 4)
  | S_PlayersConfigurationData _ =>
      let size := size_add size 1 in
      m4 ← int_mul maxPlayers 4;
      Ok (size_add size m4)
  | S_PlayerDisconnected _ => Ok (size_add size (1 + 1 + 4 + 2))
  | S_ChangePort _ => Ok (size_add size 2)
  | S_monostate => Ok size
  end.

(** *** Second visitor: the payload *)

(** The loop [for (uint8_t f = 0; f < numFrames; ++f)] over one player's
    frames. *)
Definition write_frames (arr : list Z) (numFrames : Z) (s : wstate)
  : result wstate :=
  for_each
    (λ f s,
       let v := default 0 (arr !! f) in   (* (f < arr.size()) ? arr[f] : 0 *)
       put_le 4 v s)
    (seq 0 (Z.to_nat numFrames)) s.

Definition write_payload (payload : ServerMessageVariant) (maxPlayers : Z)
    (s : wstate) : result wstate :=
  match payload with
  | S_NewConnectionReply p =>
      s ← put_u8 (NewConnectionReplyPayload.success p) s;
      s ← put_u8 (NewConnectionReplyPayload.matchNumPlayers p) s;
      s ← put_u8 (NewConnectionReplyPayload.playerIndex p) s;
      s ← put_le 4 (NewConnectionReplyPayload.matchDurationInFrames p) s;
      s ← put_u8 0 s;
      put_u8 (NewConnectionReplyPayload.isValidationServerDebugMode p) s
  | S_InputAck p => put_le 4 (InputAckPayload.ackFrame p) s
  | S_PlayerInput p =>
      s ← put_u8 (PlayerInputPayload.numPlayers p) s;
      s ← for_each
            (λ i s, sf ← get_or (PlayerInputPayload.startFrame p) i 0;
                    put_le 4 sf s)
            (seqZ 0 maxPlayers) s;
      s ← for_each
            (λ i s, nf ← get_or (PlayerInputPayload.numFrames p) i 0;
                    put_u8 nf s)
            (seqZ 0 maxPlayers) s;
      s ← put_le 2 (PlayerInputPayload.numPredictedOverrides p) s;
      s ← put_le 2 (PlayerInputPayload.numZeroedOverrides p) s;
      s ← put_le 2 (PlayerInputPayload.ping p) s;
      s ← put_le 2 (PlayerInputPayload.packetsLossPercent p) s;
      riftInt ← float_to_int16
                  (float_mul (PlayerInputPayload.rift p) (float_of_int 100));
      s ← put_le 2 riftInt s;
      s ← put_le 4 (PlayerInputPayload.checksumAckFrame p) s;
      for_each
        (λ pi s,
           arr ← get_or (PlayerInputPayload.inputPerFrame p) pi [];
           numFrames ← get_or (PlayerInputPayload.numFrames p) pi 0;
           write_frames arr numFrames s)
        (seqZ 0 maxPlayers) s
  | S_RequestQualityData p =>
      s ← put_le 2 (RequestQualityDataPayload.ping p) s;
      put_le 2 (RequestQualityDataPayload.packetsLossPercent p) s
  | S_PlayersStatus p =>
      s ← put_u8 (PlayersStatusPayload.numPlayers p) s;
      for_each
        (λ i s,
           avg ← get_or (PlayerStatusData.averagePing
                           <$> PlayersStatusPayload.status p) i 0;
           put_le 2 avg s)
        (seqZ 0 maxPlayers) s
  | S_Kick p =>
      s ← put_le 2 (KickPayload.reason p) s;
      put_le 4 (KickPayload.param1 p) s
  | S_ChecksumAck p => put_le 4 (ChecksumAckPayload.ackFrame p) s
  | S_PlayersConfigurationData p =>
      s ← put_u8 (PlayersConfigurationDataPayload.numPlayers p) s;
      for_each
        (λ i s,
           value ← at_index PlayerConfigValues
                     (Z.to_nat (i mod Z.of_nat (length PlayerConfigValues)));
           put_le 2 value s)
        (seqZ 0 maxPlayers) s
  | S_PlayerDisconnected p =>
      s ← put_u8 (PlayerDisconnectedPayload.playerIndex p) s;
      s ← put_u8 (PlayerDisconnectedPayload.shouldAITakeControl p) s;
      s ← put_le 4 (PlayerDisconnectedPayload.AITakeControlFrame p) s;
      put_le 2 (PlayerDisconnectedPayload.playerDisconnectedArrayIndex p) s
  | S_ChangePort p => put_le 2 (ChangePortPayload.port p) s
  | S_monostate => Ok s
  end.

Definition serializeServerMessage (header : ServerHeader.t)
    (payload : ServerMessageVariant) (maxPlayers : Z) : result (list Z) :=
  size ← compute_size payload maxPlayers;
  let buffer := replicate (Z.to_nat size) 0 in
  s ← put_u8 (server_type_value (ServerHeader.type header)) (WState buffer 0);
  s ← put_le 4 (ServerHeader.sequence header) s;
  s ← write_payload payload maxPlayers s;
  if decide (w_offset s < length (w_buffer s))%nat
  then Ok (resize (w_offset s) 0 (w_buffer s))
  else Ok (w_buffer s).

End Serialize.

Import Serialize.

(** [buf] with the bytes [bs] written over it from position [pos] on. *)
Definition splice (buf : list Z) (pos : nat) (bs : list Z) : list Z :=
  take pos buf ++ bs ++ drop (pos + length bs) buf.

(** ** The rift field as the specification words it

    [round (rift * 100)]: the product rounded to the nearest integer,
    halves away from zero.  It follows the specification; the theorems
    compare it with what [serializeServerMessage] writes. *)
Definition spec_round (x : spec_float) : option Z :=
  match x with
  | S754_zero _ => Some 0
  | S754_finite s m e =>
      let magnitude := (Z.shiftl (Z.pos m) (e + 1) + 1) / 2 in
      Some (if s then - magnitude else magnitude)
  | S754_infinity _ | S754_nan => None
  end.

(** A zero-terminated string inside a fixed-width field, as the
    specification words it: the bytes of the field up to, and excluding,
    the first zero byte. *)
Fixpoint until_zero (field : list Z) : list Z :=
  match field with
  | [] => []
  | b :: field' => if decide (b = 0) then [] else b :: until_zero field'
  end.

(** An input longer than 1024 bytes that still compresses: 2000 zeros and
    two non-zero bytes. *)
Definition sample_long_input : list Z := replicate 2000 0 ++ [5; 6].

(** The message type a parsed payload belongs to. *)
Definition payload_type (payload : ClientMessageVariant) : ClientMessageType :=
  match payload with
  | C_NewConnection _ => NewConnection
  | C_Input _ => Input
  | C_PlayerInputAck _ => PlayerInputAck
  | C_MatchResult _ => MatchResult
  | C_QualityData _ => QualityData
  | C_Disconnecting _ => Disconnecting
  | C_PlayerDisconnectedAck _ => PlayerDisconnectedAck
  | C_ReadyToStartMatch _ => ReadyToStartMatch
  end.

(** The shortest buffer on which [parseClientMessage] reads no byte past
    the end, by type byte: the header, plus the payload up to its last
    byte read through [buffer[offset++]]. *)
Definition min_length (type_byte : Z) : nat :=
  match client_type_of type_byte with
  | Some Input => 15
  | Some MatchResult => 11
  | Some PlayerInputAck | Some Disconnecting
  | Some PlayerDisconnectedAck | Some ReadyToStartMatch => 6
  | Some NewConnection | Some QualityData | None => 5
  end.

(** The length of the whole message a buffer starts with, by its type
    byte and, for [Input] and [PlayerInputAck], its count bytes. *)
Definition full_length (buffer : list Z) : nat :=
  let count (i : nat) := Z.to_nat (default 0 (buffer !! i)) in
  match buffer !! 0%nat ≫= client_type_of with
  | Some NewConnection => 5 + 6 + 25 + 45 + 25
  | Some Input => 15 + 4 * (count 13%nat + count 14%nat)
  | Some PlayerInputAck => 6 + 4 * count 5%nat + 4
  | Some MatchResult => 11
  | Some QualityData => 9
  | Some Disconnecting | Some PlayerDisconnectedAck
  | Some ReadyToStartMatch => 6
  | None => 5
  end.

(** The 32-bit words [read_words] finds: [k] words from [offset] on. *)
Definition words_at (buffer : list Z) (offset k : nat) : list Z :=
  (λ i : nat, readLittleEndian 4 buffer (offset + 4 * i)) <$> seq 0 k.

(** An [Input] datagram that announces 3 frames and 1 checksum but holds
    only 2 words after its 15 fixed bytes. *)
Definition sample_short_input : list Z :=
  [2; 1; 0; 0; 0; 5; 0; 0; 0; 6; 0; 0; 0; 3; 1; 7; 0; 0; 0; 8; 0; 0; 0; 9].

(** 911 non-zero bytes: one byte more than always fits; and 910. *)
Definition sample_dense_input : list Z := replicate 911 1.
Definition sample_small_input : list Z := replicate 910 1.

(** What the loops of [decompressPacket] can end in when the requested
    length is at most 1024. *)
Definition loop_outcome (r : result dstate) : Prop :=
  match r with
  | Ok _ => True
  | Throw msg => msg = truncated_msg
  | Undefined _ => False
  end.

(** A [NewConnection] datagram: header, version 3, team 1, player 0, and
    the strings "M1" (with a stray byte after its terminator), "K" and a
    25-byte environment id that fills its field. *)
Definition sample_new_connection : list Z :=
  [1; 9; 0; 0; 0; 3; 0; 1; 0; 0; 0] ++ ([77; 49; 0; 88] ++ replicate 21 0)
  ++ ([75] ++ replicate 44 0) ++ replicate 25 69.

(** What a serialiser emits: run on any buffer with enough room behind
    the offset, it writes exactly [bs] there and moves the offset past
    them. *)
Definition emits (m : wstate → result wstate) (bs : list Z) : Prop :=
  ∀ buf off, (off + length bs <= length buf)%nat →
    m (WState buf off) = Ok (WState (splice buf off bs) (off + length bs)).

(** The little-endian bytes of a [width]-byte integer. *)
Definition le_bytes (width : nat) (v : Z) : list Z :=
  (λ i : nat, Z.land (Z.shiftr v (Z.of_nat i * 8)) 255) <$> seq 0 width.

(** The signed 16-bit integer that two little-endian bytes at [off]
    denote. *)
Definition to_i16 (z : Z) : Z := (z + 2 ^ 15) mod 2 ^ 16 - 2 ^ 15.
Definition wire_i16 (buf : list Z) (off : nat) : option Z :=
  match buf !! off, buf !! S off with
  | Some b0, Some b1 => Some (to_i16 (b0 + 2 ^ 8 * b1))
  | _, _ => None
  end.

(** A [PlayerInputPayload] whose fields hold values of their C++ types:
    [numFrames] holds [uint8_t], and the vector sizes fit the [int] they
    are cast to. *)
Definition wf_PlayerInput (p : PlayerInputPayload.t) : Prop :=
  Forall (λ nf, 0 <= nf < 2 ^ 8) (PlayerInputPayload.numFrames p)
  ∧ Z.of_nat (length (PlayerInputPayload.startFrame p)) < 2 ^ 31
  ∧ Z.of_nat (length (PlayerInputPayload.numFrames p)) < 2 ^ 31
  ∧ Z.of_nat (length (PlayerInputPayload.inputPerFrame p)) < 2 ^ 31.

(** [numFrames[i]], or 0 past the end of the vector. *)
Definition frames_of (p : PlayerInputPayload.t) (i : Z) : Z :=
  default 0 (PlayerInputPayload.numFrames p !! Z.to_nat i).

(** The bytes of one player's frames, and of a whole [PlayerInput]
    payload whose rift field holds [riftInt]. *)
Definition frames_bytes (arr : list Z) (numFrames : Z) : list Z :=
  seq 0 (Z.to_nat numFrames) ≫= λ f, le_bytes 4 (default 0 (arr !! f)).

Definition PlayerInput_bytes (p : PlayerInputPayload.t) (maxPlayers : Z)
    (riftInt : Z) : list Z :=
  [PlayerInputPayload.numPlayers p]
  ++ (seqZ 0 maxPlayers ≫= λ i,
        le_bytes 4 (default 0 (PlayerInputPayload.startFrame p !! Z.to_nat i)))
  ++ (seqZ 0 maxPlayers ≫= λ i, [frames_of p i])
  ++ le_bytes 2 (PlayerInputPayload.numPredictedOverrides p)
  ++ le_bytes 2 (PlayerInputPayload.numZeroedOverrides p)
  ++ le_bytes 2 (PlayerInputPayload.ping p)
  ++ le_bytes 2 (PlayerInputPayload.packetsLossPercent p)
  ++ le_bytes 2 riftInt
  ++ le_bytes 4 (PlayerInputPayload.checksumAckFrame p)
  ++ (seqZ 0 maxPlayers ≫= λ pi,
        frames_bytes
          (default [] (PlayerInputPayload.inputPerFrame p !! Z.to_nat pi))
          (frames_of p pi)).

(** A [PlayerInput] message for two players; its rift is [2^-6 =
    0.015625], so that [rift * 100 = 1.5625] exactly. *)
Definition sample_PlayerInput : PlayerInputPayload.t :=
  PlayerInputPayload.mk 2 [10; 20] [2; 1] 0 0 30 1
    (S754_finite false 8388608 (-29)) 7 [[1; 2]; [3]].

(** Where the [rift] field of a [PlayerInput] message starts: after the
    header (5), [numPlayers] (1), [startFrame] (4 each), [numFrames]
    (1 each), the two override counters, [ping] and [packetsLossPercent]. *)
Definition rift_offset (maxPlayers : Z) : nat :=
  Z.to_nat (5 + 1 + 4 * maxPlayers + maxPlayers + 2 + 2 + 2 + 2).

(** The payload bytes of the messages whose layout does not depend on
    [maxPlayers]; [None] for the three whose layout does. *)
Definition fixed_payload (payload : ServerMessageVariant)
  : option (list Z) :=
  match payload with
  | S_NewConnectionReply p =>
      Some ([NewConnectionReplyPayload.success p;
             NewConnectionReplyPayload.matchNumPlayers p;
             NewConnectionReplyPayload.playerIndex p]
            ++ le_bytes 4 (NewConnectionReplyPayload.matchDurationInFrames p)
            ++ [0; NewConnectionReplyPayload.isValidationServerDebugMode p])
  | S_InputAck p => Some (le_bytes 4 (InputAckPayload.ackFrame p))
  | S_RequestQualityData p =>
      Some (le_bytes 2 (RequestQualityDataPayload.ping p)
            ++ le_bytes 2 (RequestQualityDataPayload.packetsLossPercent p))
  | S_Kick p =>
      Some (le_bytes 2 (KickPayload.reason p)
            ++ le_bytes 4 (KickPayload.param1 p))
  | S_ChecksumAck p => Some (le_bytes 4 (ChecksumAckPayload.ackFrame p))
  | S_PlayerDisconnected p =>
      Some ([PlayerDisconnectedPayload.playerIndex p;
             PlayerDisconnectedPayload.shouldAITakeControl p]
            ++ le_bytes 4 (PlayerDisconnectedPayload.AITakeControlFrame p)
            ++ le_bytes 2
                 (PlayerDisconnectedPayload.playerDisconnectedArrayIndex p))
  | S_ChangePort p => Some (le_bytes 2 (ChangePortPayload.port p))
  | S_monostate => Some []
  | S_PlayerInput _ | S_PlayersStatus _ | S_PlayersConfigurationData _ =>
      None
  end.

(** Entry [i] of the [averagePing] a [PlayersStatus] message carries, or
    0 past the end of [status]. *)
Definition ping_of (p : PlayersStatusPayload.t) (i : Z) : Z :=
  default 0 ((PlayerStatusData.averagePing <$> PlayersStatusPayload.status p)
             !! Z.to_nat i).

Definition PlayersStatus_bytes (p : PlayersStatusPayload.t) (maxPlayers : Z)
  : list Z :=
  PlayersStatusPayload.numPlayers p
  :: (seqZ 0 maxPlayers ≫= λ i, le_bytes 2 (ping_of p i)).

(** Number of input words a [PlayerInput] message carries for
    [maxPlayers] players. *)
Definition frames_total (p : PlayerInputPayload.t) (maxPlayers : Z) : nat :=
  sum_list_with (λ i, Z.to_nat (frames_of p i)) (seqZ 0 maxPlayers).

(** A writer that only moves forward: when it succeeds from an offset
    inside the buffer, the buffer keeps its length, the offset has not
    moved back nor left the buffer, and the bytes before the old offset
    are the ones that were there. *)
Definition forward (s s' : wstate) : Prop :=
  length (w_buffer s') = length (w_buffer s)
  ∧ (w_offset s <= w_offset s' <= length (w_buffer s'))%nat
  ∧ take (w_offset s) (w_buffer s') = take (w_offset s) (w_buffer s).

Definition keeps (m : wstate → result wstate) : Prop :=
  ∀ s s', (w_offset s <= length (w_buffer s))%nat →
          m s = Ok s' → forward s s'.

(** A writer that runs into undefined behaviour [why] once [room] bytes
    behind the offset have been written. *)
Definition fails (m : wstate → result wstate) (why : ub) (room : nat)
  : Prop :=
  ∀ buf off, (off + room <= length buf)%nat →
    m (WState buf off) = Undefined why.

(** The bytes of a [PlayerInput] payload that come before its rift
    field. *)
Definition PlayerInput_prefix (p : PlayerInputPayload.t) (maxPlayers : Z)
  : list Z :=
  [PlayerInputPayload.numPlayers p]
  ++ (seqZ 0 maxPlayers ≫= λ i,
        le_bytes 4 (default 0 (PlayerInputPayload.startFrame p !! Z.to_nat i)))
  ++ (seqZ 0 maxPlayers ≫= λ i, [frames_of p i])
  ++ le_bytes 2 (PlayerInputPayload.numPredictedOverrides p)
  ++ le_bytes 2 (PlayerInputPayload.numZeroedOverrides p)
  ++ le_bytes 2 (PlayerInputPayload.ping p)
  ++ le_bytes 2 (PlayerInputPayload.packetsLossPercent p).

(** A [PlayerInput] message whose rift is [400.0]: [rift * 100] is
    [40000], more than an [int16_t] holds. *)
Definition sample_far_rift : PlayerInputPayload.t :=
  PlayerInputPayload.mk 2 [10; 20] [2; 1] 0 0 30 1
    (S754_finite false 13107200 (-15)) 7 [[1; 2]; [3]].

(** A [NewConnectionReply] whose [unknown] field is 9, and a
    [PlayersStatus] message with one entry for two players. *)
Definition sample_reply : NewConnectionReplyPayload.t :=
  NewConnectionReplyPayload.mk 1 2 0 3600 9 0.
Definition sample_status : PlayersStatusPayload.t :=
  PlayersStatusPayload.mk 2 [PlayerStatusData.mk 300].

(** ** The codec as the specification words it

    Groups of eight consecutive bytes; each group gives one mask byte, whose
    bit [i] (bit 0 the least significant) is set iff the [i]-th byte of the
    group is non-zero, followed by the non-zero bytes of the group in order.
    These definitions follow the specification, not the code; the theorems
    below compare them with [compressPacket]. *)

Module Codec.

(** Mask of the group [g] whose bytes are assigned the bit numbers [bits]. *)
Fixpoint mask_bits (bits : list Z) (g : list Z) : Z :=
  match bits, g with
  | bit :: bits', v :: g' =>
      Z.lor (if decide (v = 0) then 0 else Z.shiftl 1 bit) (mask_bits bits' g')
  | _, _ => 0
  end.

Definition group_mask (g : list Z) : Z := mask_bits (bits_from 0) g.

Definition literals (g : list Z) : list Z := filter (λ v, v ≠ 0) g.

Fixpoint encode_groups (fuel : nat) (l : list Z) : list Z :=
  match fuel, l with
  | S fuel', _ :: _ =>
      let g := take 8 l in
      group_mask g :: literals g ++ encode_groups fuel' (drop 8 l)
  | _, _ => []
  end.

Definition zs_encode (l : list Z) : list Z := encode_groups (length l) l.

(** [mask] describes the group [g] at the bit numbers [bits]: a bit is
    set iff the byte it stands for is non-zero. *)
Definition mask_of_group (mask : Z) (bits g : list Z) : Prop :=
  ∀ j b v, bits !! j = Some b → g !! j = Some v →
           (Z.testbit mask b = true ↔ v ≠ 0).

(** Number of groups, [ceil (n / 8)]. *)
Definition groups (n : nat) : nat := (n + 7) / 8.

End Codec.

Import Codec.

(* ================================================================= *)
(** * Properties *)

(** ** Buffers *)

Section splice.
Implicit Types (buf bs : list Z) (pos : nat).

Lemma splice_nil buf pos : splice buf pos [] = buf.
Proof.
  unfold splice. simpl. rewrite Nat.add_0_r. apply take_drop.
Qed.

Lemma length_splice buf pos bs :
  (pos + length bs <= length buf)%nat →
  length (splice buf pos bs) = length buf.
Proof.
  intros H. unfold splice.
  rewrite !length_app, length_take, length_drop. lia.
Qed.

Lemma splice_insert_cons buf pos v bs :
  (pos < length buf)%nat →
  splice (<[pos:=v]> buf) (S pos) bs = splice buf pos (v :: bs).
Proof.
  intros H. unfold splice.
  rewrite drop_insert_lt by lia.
  rewrite (take_S_r _ pos v) by (by apply list_lookup_insert_eq).
  rewrite take_insert_ge by lia.
  rewrite <- app_assoc. simpl.
  by replace (pos + S (length bs))%nat with (S (pos + length bs)) by lia.
Qed.

Lemma insert_splice_before buf pos v bs :
  (pos < length buf)%nat →
  <[pos:=v]> (splice buf (S pos) bs) = splice (<[pos:=v]> buf) (S pos) bs.
Proof.
  intros H. unfold splice.
  rewrite drop_insert_lt by lia.
  rewrite take_insert_lt by lia.
  rewrite insert_app_l; [done|]. rewrite length_take. lia.
Qed.

Lemma splice_app buf pos bs1 bs2 :
  (pos + length bs1 + length bs2 <= length buf)%nat →
  splice (splice buf pos bs1) (pos + length bs1) bs2
  = splice buf pos (bs1 ++ bs2).
Proof.
  intros H. unfold splice.
  rewrite take_app_ge by (rewrite length_take; lia).
  rewrite length_take, Nat.min_l by lia.
  rewrite take_app_ge by lia.
  replace (pos + length bs1 - pos - length bs1)%nat with 0%nat by lia.
  rewrite take_0, app_nil_r.
  rewrite drop_app_ge by (rewrite length_take; lia).
  rewrite length_take, Nat.min_l by lia.
  rewrite drop_app_ge by lia.
  rewrite drop_drop, length_app, <- !app_assoc.
  do 3 f_equal. f_equal. lia.
Qed.

Lemma take_splice buf bs n :
  n = length bs → take n (splice buf 0 bs) = bs.
Proof.
  intros ->. unfold splice. rewrite take_0. simpl. apply take_app_length.
Qed.
End splice.

(** ** Mask bytes *)

Section masks.
Implicit Types (bits g : list Z) (m b : Z).

Lemma bit_range_bits_from b : 0 <= b → bit_range (bits_from b).
Proof.
  intros Hb. apply Forall_forall. intros x Hx.
  apply list_elem_of_lookup in Hx as [i Hi].
  apply lookup_seqZ in Hi. lia.
Qed.

Lemma lor_u8_bound m1 m2 :
  0 <= m1 < 256 → 0 <= m2 < 256 → 0 <= Z.lor m1 m2 < 256.
Proof.
  intros H1 H2. split; [apply Z.lor_nonneg; lia|].
  destruct (decide (Z.lor m1 m2 = 0)) as [->|Hne]; [lia|].
  assert (0 <= Z.lor m1 m2) by (apply Z.lor_nonneg; lia).
  change 256 with (2 ^ 8). apply Z.log2_lt_pow2; [lia|].
  rewrite Z.log2_lor by lia.
  assert (Hl : ∀ m, 0 <= m < 256 → Z.log2 m < 8).
  { intros m Hm. destruct (decide (m = 0)) as [->|]; [done|].
    apply Z.log2_lt_pow2; lia. }
  pose proof (Hl m1 H1). pose proof (Hl m2 H2). lia.
Qed.

Lemma shiftl_1_bound b : 0 <= b < 8 → 0 <= Z.shiftl 1 b < 256.
Proof.
  intros Hb. rewrite Z.shiftl_1_l. split; [apply Z.pow_nonneg; lia|].
  change 256 with (2 ^ 8). apply Z.pow_lt_mono_r; lia.
Qed.

Lemma to_u8_small m : 0 <= m < 256 → to_u8 m = m.
Proof. intros H. unfold to_u8. apply Z.mod_small. lia. Qed.

Lemma mask_bits_bound bits g :
  bit_range bits → 0 <= mask_bits bits g < 256.
Proof.
  intros Hb. revert g. induction Hb as [|b bits Hb _ IH]; intros g.
  - simpl. lia.
  - destruct g as [|v g]; simpl; [lia|].
    apply lor_u8_bound; [|apply IH].
    case_decide; [lia|by apply shiftl_1_bound].
Qed.

(** [(mask & (1 << bit)) != 0] tests bit [bit] of [mask]. *)
Lemma land_bit_testbit m b :
  0 <= b → Z.land m (Z.shiftl 1 b) ≠ 0 ↔ Z.testbit m b = true.
Proof.
  intros Hb. rewrite Z.shiftl_1_l. split.
  - intros Hne. destruct (Z.testbit m b) eqn:Ht; [done|].
    exfalso. apply Hne. apply Z.bits_inj'. intros i Hi.
    rewrite Z.land_spec, Z.bits_0.
    destruct (decide (i = b)) as [->|Hib].
    + by rewrite Ht.
    + rewrite Z.pow2_bits_false by lia. apply andb_false_r.
  - intros Ht Hz.
    assert (Z.testbit (Z.land m (2 ^ b)) b = true) as Hc.
    { rewrite Z.land_spec, Ht, Z.pow2_bits_true by lia. done. }
    rewrite Hz, Z.bits_0 in Hc. done.
Qed.

(** Bit [i] of a mask is set iff the byte given bit number [i] is
    non-zero. *)
Lemma testbit_mask_bits bits g i :
  bit_range bits →
  Z.testbit (mask_bits bits g) i = true ↔
  ∃ j v, bits !! j = Some i ∧ g !! j = Some v ∧ v ≠ 0.
Proof.
  intros Hb. revert g. induction Hb as [|b bits Hb _ IH]; intros g.
  - simpl. rewrite Z.bits_0. split; [done|]. by intros (j & v & ? & _).
  - destruct g as [|v g].
    { simpl. rewrite Z.bits_0. split; [done|]. by intros (j & w & _ & ? & _). }
    simpl. rewrite Z.lor_spec, orb_true_iff, IH. split.
    + intros [Hh|(j & w & ? & ? & ?)].
      * case_decide as Hv; [by rewrite Z.bits_0 in Hh|].
        rewrite Z.shiftl_1_l in Hh.
        destruct (decide (b = i)) as [->|Hne].
        -- by exists 0%nat, v.
        -- rewrite Z.pow2_bits_false in Hh by lia. done.
      * by exists (S j), w.
    + intros (j & w & Hj & Hg & Hw). destruct j as [|j]; simpl in *.
      * simplify_eq. left. rewrite decide_False by done.
        rewrite Z.shiftl_1_l. apply Z.pow2_bits_true. lia.
      * right. by exists j, w.
Qed.

(** The mask convention of the codec: bit [i] (bit 0 the least
    significant) of a group's mask is set iff the [i]-th byte of the
    group is non-zero. *)
Lemma testbit_group_mask g (i : nat) :
  (i < 8)%nat →
  Z.testbit (group_mask g) (Z.of_nat i) = true ↔
  ∃ v, g !! i = Some v ∧ v ≠ 0.
Proof.
  intros Hi. unfold group_mask.
  rewrite testbit_mask_bits by (by apply bit_range_bits_from).
  split.
  - intros (j & v & Hj & Hg & Hv). apply lookup_seqZ in Hj as [Hj _].
    assert (j = i) as -> by lia. by exists v.
  - intros (v & Hg & Hv). exists i, v. split_and!; [|done..].
    apply lookup_seqZ. unfold bits_from. lia.
Qed.
End masks.

(** ** compressPacket against the codec *)

Section compress.
Implicit Types (input bits g : list Z) (st : cstate).

Lemma literals_cons v g :
  literals (v :: g) = if decide (v = 0) then literals g else v :: literals g.
Proof.
  unfold literals. rewrite filter_cons. by repeat case_decide.
Qed.

(** One run of the inner loop packs the next group (or what is left of
    it) behind [outPos], and fails exactly when its literals do not fit. *)
Lemma pack_bits_spec input bits : ∀ buf inPos outPos mask,
  bit_range bits → 0 <= mask < 256 →
  length buf = MAX_SIZE → (outPos <= MAX_SIZE)%nat →
  let g := take (length bits) (drop inPos input) in
  pack_bits input bits (CState buf inPos outPos) mask =
    if decide (outPos + length (literals g) <= MAX_SIZE)%nat then
      Ok (CState (splice buf outPos (literals g))
                 (inPos + length g) (outPos + length (literals g)),
          Z.lor mask (mask_bits bits g))
    else Throw overflow_msg.
Proof.
  induction bits as [|bit bits IH]; intros buf inPos outPos mask Hb Hm Hlen Hpos;
    simpl in *.
  - rewrite Nat.add_0_r, decide_True by lia.
    by rewrite splice_nil, Nat.add_0_r, Z.lor_0_r.
  - apply Forall_cons in Hb as [Hbit Hb].
    destruct (input !! inPos) as [v|] eqn:Hv.
    + rewrite (drop_S _ v) by done. simpl. rewrite literals_cons.
      destruct (decide (v = 0)) as [->|Hv0].
      * rewrite IH by done. simpl.
        case_decide; [|done]. rewrite Z.lor_0_l.
        do 3 f_equal. lia.
      * simpl. destruct (decide (MAX_SIZE <= outPos)%nat).
        { rewrite decide_False by lia. done. }
        rewrite to_u8_small
          by (apply lor_u8_bound; [done|by apply shiftl_1_bound]).
        rewrite IH; [|done|apply lor_u8_bound; [done|by apply shiftl_1_bound]
                     |by rewrite length_insert|lia].
        repeat case_decide; try lia; [|done].
        rewrite splice_insert_cons by lia. rewrite Z.lor_assoc.
        do 3 f_equal; lia.
    + apply lookup_ge_None in Hv. rewrite drop_ge by lia.
      rewrite take_nil. simpl.
      rewrite Nat.add_0_r, decide_True by lia.
      by rewrite splice_nil, Nat.add_0_r, Z.lor_0_r.
Qed.
End compress.

Section encode.
Implicit Types (l g : list Z).

Lemma groups_step n : (0 < n)%nat → groups n = S (groups (n - 8)).
Proof.
  intros Hn. unfold groups.
  destruct (decide (n < 8)%nat).
  - replace (n - 8 + 7)%nat with 7%nat by lia.
    rewrite (Nat.div_small 7 8) by lia.
    assert (n + 7 = 1 * 8 + (n - 1))%nat as -> by lia.
    rewrite Nat.div_add_l by lia. rewrite Nat.div_small; lia.
  - assert (n + 7 = 1 * 8 + (n - 8 + 7))%nat as -> by lia.
    rewrite Nat.div_add_l by lia. lia.
Qed.

Lemma encode_groups_fuel fuel : ∀ l,
  (length l <= fuel)%nat → encode_groups fuel l = zs_encode l.
Proof.
  induction (lt_wf fuel) as [fuel _ IH]. intros l Hl.
  unfold zs_encode. destruct l as [|v l]; [by destruct fuel|].
  destruct fuel as [|fuel]; [simpl in Hl; lia|].
  simpl in *. do 2 f_equal.
  assert (length (drop 7 l) <= length l)%nat by (rewrite length_drop; lia).
  rewrite (IH fuel) by lia. rewrite (IH (length l)) by lia. done.
Qed.

Lemma zs_encode_step l :
  l ≠ [] →
  zs_encode l
  = group_mask (take 8 l) :: literals (take 8 l) ++ zs_encode (drop 8 l).
Proof.
  intros Hl. destruct l as [|v l]; [done|].
  unfold zs_encode at 1. simpl. do 2 f_equal.
  apply encode_groups_fuel. rewrite length_drop. lia.
Qed.

Lemma literals_app l1 l2 : literals (l1 ++ l2) = literals l1 ++ literals l2.
Proof. apply filter_app. Qed.

(** Size of the encoding: one mask per group and one literal per
    non-zero byte. *)
Lemma length_zs_encode l :
  length (zs_encode l) = (groups (length l) + length (literals l))%nat.
Proof.
  remember (length l) as k eqn:Hk. revert l Hk.
  induction (lt_wf k) as [k _ IH]. intros l ->.
  destruct (decide (l = [])) as [->|Hne]; [done|].
  rewrite zs_encode_step by done. simpl.
  rewrite length_app.
  assert (0 < length l)%nat by (destruct l; simpl; [done|lia]).
  rewrite (IH (length (drop 8 l))); [|rewrite length_drop; lia|done].
  rewrite (groups_step (length l)) by done.
  rewrite <- (take_drop 8 l) at 5. rewrite literals_app, length_app.
  rewrite length_drop. lia.
Qed.
End encode.

Section compress_loop.
Implicit Types (input buf : list Z).

Lemma drop_past_group input i k :
  drop (i + length (take k (drop i input))) input = drop k (drop i input).
Proof.
  rewrite drop_drop, length_take, length_drop.
  destruct (decide (k <= length input - i)%nat).
  - by rewrite Nat.min_l by lia.
  - rewrite Nat.min_r by lia. by rewrite !drop_ge by lia.
Qed.

Lemma length_bits_from_0 : length (bits_from 0) = 8%nat.
Proof. reflexivity. Qed.

Lemma compress_loop_S fuel input st :
  compress_loop (S fuel) input st =
    if decide (c_inPos st < length input)%nat then
      if decide (MAX_SIZE <= c_outPos st)%nat then Throw overflow_msg
      else
        '(st', mask) ← pack_bits input (bits_from 0)
            (CState (c_outBuf st) (c_inPos st) (S (c_outPos st))) 0;
        compress_loop fuel input
          (CState (<[c_outPos st := mask]> (c_outBuf st'))
                  (c_inPos st') (c_outPos st'))
    else Ok st.
Proof. reflexivity. Qed.

(** The outer loop writes the encoding of the unread input behind
    [outPos], and throws exactly when that encoding does not fit. *)
Lemma compress_loop_spec fuel : ∀ input buf inPos outPos,
  (length input - inPos <= fuel)%nat →
  length buf = MAX_SIZE → (outPos <= MAX_SIZE)%nat →
  (inPos <= length input)%nat →
  let enc := zs_encode (drop inPos input) in
  compress_loop fuel input (CState buf inPos outPos) =
    if decide (outPos + length enc <= MAX_SIZE)%nat then
      Ok (CState (splice buf outPos enc) (length input)
                 (outPos + length enc))
    else Throw overflow_msg.
Proof.
  induction fuel as [|fuel IH]; intros input buf inPos outPos Hf Hlen Hpos Hin enc.
  - simpl. rewrite decide_False by lia.
    subst enc. rewrite drop_ge by lia. simpl.
    rewrite decide_True by lia. rewrite splice_nil.
    do 2 f_equal; lia.
  - rewrite compress_loop_S. cbn [c_inPos c_outPos c_outBuf].
    destruct (decide (inPos < length input)%nat) as [Hlt|Hge].
    + assert (drop inPos input ≠ []) as Hne.
      { intros Hd. apply (f_equal length) in Hd.
        rewrite length_drop in Hd. simpl in Hd. lia. }
      subst enc. rewrite zs_encode_step by done. cbn [length].
      destruct (decide (MAX_SIZE <= outPos)%nat).
      { by rewrite decide_False by lia. }
      rewrite pack_bits_spec;
        [|by apply bit_range_bits_from|lia|done|lia].
      rewrite length_bits_from_0.
      set (g := take 8 (drop inPos input)).
      destruct (decide (S outPos + length (literals g) <= MAX_SIZE)%nat)
        as [Hfit|Hnofit]; cbn [mbind result_bind c_inPos c_outPos c_outBuf].
      * assert (0 < length g)%nat.
        { subst g. rewrite length_take, length_drop. lia. }
        assert (length g <= length input - inPos)%nat.
        { subst g. rewrite length_take, length_drop. lia. }
        rewrite IH;
          [|lia|by rewrite length_insert, length_splice by lia|lia|lia].
        subst g. rewrite drop_past_group.
        set (g := take 8 (drop inPos input)) in *.
        set (rest := zs_encode (drop 8 (drop inPos input))).
        rewrite length_app.
        repeat case_decide; try lia; [|done].
        rewrite insert_splice_before, splice_insert_cons by lia.
        change (Z.lor 0 (mask_bits (bits_from 0) g)) with (group_mask g).
        replace (S outPos + length (literals g))%nat
          with (outPos + length (group_mask g :: literals g))%nat
          by (simpl; lia).
        rewrite splice_app by (simpl; lia). simpl.
        do 2 f_equal. lia.
      * rewrite decide_False; [done|]. rewrite length_app. lia.
    + subst enc. rewrite drop_ge by lia. simpl.
      rewrite decide_True by lia. rewrite splice_nil.
      do 2 f_equal; lia.
Qed.

(** [compressPacket] returns the encoding when it has at most 1024 bytes
    and throws otherwise. *)
Lemma compressPacket_spec input :
  compressPacket input =
    if decide (length (zs_encode input) <= MAX_SIZE)%nat
    then Ok (zs_encode input) else Throw overflow_msg.
Proof.
  unfold compressPacket.
  destruct (decide (length input = 0)%nat) as [H0|Hn].
  - apply nil_length_inv in H0 as ->. by rewrite decide_True by (simpl; lia).
  - rewrite compress_loop_spec;
      [|lia|by rewrite length_replicate|lia|lia].
    rewrite drop_0. cbn [Nat.add].
    case_decide; [|done]. cbn [mbind result_bind c_outPos c_outBuf].
    rewrite resize_le
      by (rewrite length_splice; rewrite ?length_replicate; cbn [Nat.add]; lia).
    by rewrite take_splice.
Qed.
End compress_loop.

(** ** decompressPacket on an encoding *)

Section decompress.
Implicit Types (c buf g bits rest : list Z).

Lemma mask_of_group_tail mask b bits v g :
  mask_of_group mask (b :: bits) (v :: g) → mask_of_group mask bits g.
Proof. intros H j b' v' Hb Hg. by apply (H (S j)). Qed.

Lemma mask_of_group_mask g : mask_of_group (group_mask g) (bits_from 0) g.
Proof.
  intros j b v Hb Hg.
  pose proof Hb as Hj. apply lookup_seqZ in Hj as [-> Hj].
  rewrite Z.add_0_l. rewrite testbit_group_mask by lia.
  split; [intros (w & ? & ?); by simplify_eq|]. intros; by exists v.
Qed.

(** One run of the inner loop on the mask of [g], with the literals of
    [g] next in the stream, writes [g]. *)
Lemma unpack_bits_spec c n mask bits : ∀ g buf readPos writePos,
  bit_range bits → mask_of_group mask bits g →
  (length g <= length bits)%nat →
  (length g = length bits ∨ writePos + length g = n)%nat →
  (writePos + length g <= n)%nat → (n <= MAX_SIZE)%nat →
  length buf = MAX_SIZE →
  take (length (literals g)) (drop readPos c) = literals g →
  unpack_bits c n mask bits (DState buf readPos writePos)
  = Ok (DState (splice buf writePos g) (readPos + length (literals g))
               (writePos + length g)).
Proof.
  induction bits as [|bit bits IH];
    intros g buf readPos writePos Hb Hm Hg Hfull Hn Hmax Hlen Hlits.
  - destruct g; [|simpl in Hg; lia]. simpl.
    by rewrite splice_nil, !Nat.add_0_r.
  - apply Forall_cons in Hb as [Hbit Hb]. cbn [unpack_bits d_writePos].
    destruct (decide (writePos < n)%nat) as [Hw|Hw].
    + destruct g as [|v g]; [simpl in Hfull; lia|].
      assert (Z.testbit mask bit = true ↔ v ≠ 0) as Htest
        by (by apply (Hm 0%nat)).
      apply mask_of_group_tail in Hm.
      rewrite literals_cons in *. cbn [length] in *.
      destruct (decide (v = 0)) as [->|Hv].
      * rewrite bool_decide_eq_false_2
          by (rewrite land_bit_testbit, Htest by lia; tauto).
        rewrite decide_False by lia. cbn [d_outBuf d_readPos d_writePos].
        rewrite (IH g); [|done|done|lia|lia|lia|done
                         |by rewrite length_insert|done].
        rewrite splice_insert_cons by lia. do 2 f_equal. lia.
      * rewrite bool_decide_eq_true_2
          by (rewrite land_bit_testbit, Htest by lia; tauto).
        cbn [length] in Hlits.
        destruct (drop readPos c) as [|w tl] eqn:Hd; [done|].
        simpl in Hlits. injection Hlits as -> Hlits.
        assert (c !! readPos = Some v) as Hc.
        { rewrite <- (Nat.add_0_r readPos), <- lookup_drop, Hd. done. }
        assert (readPos < length c)%nat by (by eapply lookup_lt_Some).
        cbn [d_readPos d_outBuf d_writePos].
        rewrite decide_False by lia. rewrite decide_False by lia.
        unfold at_index. rewrite Hc. cbn [mbind result_bind].
        rewrite (IH g);
          [|done|done|lia|lia|lia|done|by rewrite length_insert|].
        -- rewrite splice_insert_cons by lia. cbn [length].
           do 2 f_equal; lia.
        -- rewrite <- Hlits at 2. f_equal.
           replace (S readPos) with (readPos + 1)%nat by lia.
           by rewrite <- drop_drop, Hd.
    + assert (g = []) as ->.
      { destruct g; [done|]. simpl in Hn. lia. }
      by rewrite splice_nil, !Nat.add_0_r.
Qed.
End decompress.

Section decompress_loop.
Implicit Types (c buf rest : list Z).

Lemma decompress_loop_S fuel c n st :
  decompress_loop (S fuel) c n st =
    if decide (d_readPos st < length c ∧ d_writePos st < n)%nat then
      if decide (length c <= d_readPos st)%nat then Throw unexpected_end_msg
      else
        mask ← at_index c (d_readPos st);
        st' ← unpack_bits c n mask (bits_from 0)
                (DState (d_outBuf st) (S (d_readPos st)) (d_writePos st));
        decompress_loop fuel c n st'
    else Ok st.
Proof. reflexivity. Qed.

Lemma decompress_loop_exit fuel c n st :
  ¬ (d_readPos st < length c ∧ d_writePos st < n)%nat →
  decompress_loop fuel c n st = Ok st.
Proof. intros H. destruct fuel; simpl; by rewrite decide_False. Qed.

Lemma groups_pos n : (0 < n)%nat → (0 < groups n)%nat.
Proof. intros H. rewrite groups_step by done. lia. Qed.

(** With the encoding of [pre] next in the stream, where [pre] is made of
    whole groups or ends the output, the outer loop writes [pre] in
    [groups (length pre)] rounds and goes on behind it. *)
Lemma decompress_loop_prefix k c n tail : ∀ pre buf readPos writePos,
  drop readPos c = zs_encode pre ++ tail →
  (length pre `mod` 8 = 0 ∨ writePos + length pre = n)%nat →
  (writePos + length pre <= n)%nat → (n <= MAX_SIZE)%nat →
  length buf = MAX_SIZE →
  decompress_loop (groups (length pre) + k) c n (DState buf readPos writePos)
  = decompress_loop k c n
      (DState (splice buf writePos pre)
              (readPos + length (zs_encode pre)) (writePos + length pre)).
Proof.
  intros pre. remember (groups (length pre)) as f eqn:Hf.
  revert pre Hf.
  induction f as [|f IH];
    intros pre Hf buf readPos writePos Hc Hfull Hn Hmax Hlen.
  - assert (pre = []) as ->.
    { destruct pre as [|v pre]; [done|].
      pose proof (groups_pos (length (v :: pre))) as Hp. simpl in *. lia. }
    by rewrite splice_nil, !Nat.add_0_r.
  - destruct (decide (pre = [])) as [->|Hne]; [done|].
    assert (0 < length pre)%nat by (destruct pre; simpl; [done|lia]).
    rewrite zs_encode_step in Hc |- * by done.
    set (g := take 8 pre) in *.
    assert (c !! readPos = Some (group_mask g)) as Hmask.
    { rewrite <- (Nat.add_0_r readPos), <- lookup_drop, Hc. done. }
    assert (readPos < length c)%nat by (by eapply lookup_lt_Some).
    change (S f + k)%nat with (S (f + k)).
    rewrite decompress_loop_S. cbn [d_readPos d_writePos d_outBuf].
    rewrite decide_True by lia. rewrite decide_False by lia.
    unfold at_index. rewrite Hmask. cbn [mbind result_bind].
    assert (length g = Nat.min 8 (length pre)) as Hg
      by (subst g; apply length_take).
    assert (drop (S readPos) c
            = literals g ++ zs_encode (drop 8 pre) ++ tail) as Hc'.
    { replace (S readPos) with (readPos + 1)%nat by lia.
      rewrite <- drop_drop, Hc. simpl. by rewrite drop_0, <- app_assoc. }
    assert (length pre < 8 → length pre `mod` 8 ≠ 0)%nat as Hsmall.
    { intros Hlt. rewrite Nat.mod_small by done. lia. }
    rewrite (unpack_bits_spec _ _ _ _ g);
      [|by apply bit_range_bits_from|apply mask_of_group_mask
       |rewrite length_bits_from_0; lia|rewrite length_bits_from_0; lia
       |lia|done|done|by rewrite Hc', take_app_length].
    cbn [mbind result_bind].
    rewrite groups_step in Hf by done.
    rewrite (IH (drop 8 pre));
      [|rewrite length_drop; lia
       |rewrite <- drop_drop, Hc'; apply drop_app_length
       | |rewrite length_drop; lia|done|by rewrite length_splice by lia].
    + rewrite splice_app by (rewrite length_drop; lia).
      subst g. rewrite take_drop. cbn [length]. rewrite length_app.
      do 2 f_equal; [lia|].
      rewrite <- (take_drop 8 pre) at 3. rewrite length_app. lia.
    + rewrite length_drop.
      destruct (decide (length pre < 8)%nat); [left|].
      { by replace (length pre - 8)%nat with 0%nat by lia. }
      destruct Hfull as [Hmod|Hend]; [left|right; lia].
      replace (length pre) with (length pre - 8 + 1 * 8)%nat in Hmod by lia.
      by rewrite Nat.Div0.mod_add in Hmod.
Qed.

(** Decompressing an encoding with the length of its source gives the
    source back. *)
Lemma decompressPacket_zs_encode b :
  (length b <= MAX_SIZE)%nat →
  decompressPacket (zs_encode b) (length b) = Ok b.
Proof.
  intros Hb. unfold decompressPacket. rewrite decide_False by lia.
  rewrite length_zs_encode.
  rewrite (decompress_loop_prefix _ _ _ []);
    [|by rewrite drop_0, app_nil_r|by right|done|done
     |by rewrite length_replicate].
  rewrite decompress_loop_exit by (simpl; lia).
  cbn [mbind result_bind d_outBuf].
  rewrite resize_le
    by (rewrite length_splice; rewrite ?length_replicate; cbn [Nat.add]; lia).
  by rewrite take_splice.
Qed.

(** An encoding of whole groups followed by nothing: the loop stops at the
    end of the input and what is left of the output stays zero. *)
Lemma decompressPacket_short_input pre n :
  (length pre `mod` 8 = 0)%nat → (length pre <= n)%nat → (n <= 1024)%nat →
  decompressPacket (zs_encode pre) n
  = Ok (pre ++ replicate (n - length pre) 0).
Proof.
  intros Hmod Hpre Hn. unfold decompressPacket.
  rewrite decide_False by (unfold MAX_SIZE; lia).
  rewrite length_zs_encode.
  rewrite (decompress_loop_prefix _ _ _ []);
    [|by rewrite drop_0, app_nil_r|by left|done|by unfold MAX_SIZE
     |by rewrite length_replicate].
  rewrite decompress_loop_exit by (simpl; lia).
  cbn [mbind result_bind d_outBuf]. unfold splice.
  rewrite take_0, Nat.add_0_l. cbn [app].
  rewrite drop_replicate, resize_spec, take_app, take_replicate.
  rewrite (take_ge pre) by lia.
  rewrite length_app, length_replicate.
  replace (n - (length pre + (MAX_SIZE - length pre)))%nat with 0%nat
    by (unfold MAX_SIZE; lia).
  simpl. rewrite app_nil_r. do 2 f_equal.
  unfold MAX_SIZE. f_equal. lia.
Qed.
End decompress_loop.

(** ** Fuel of the decompression loop *)

Section decompress_fuel.
Implicit Types (c bits : list Z) (st : dstate).

Lemma unpack_bits_readPos c n mask bits : ∀ st st',
  unpack_bits c n mask bits st = Ok st' →
  (d_readPos st <= d_readPos st')%nat.
Proof.
  induction bits as [|bit bits IH]; intros st st' H; simpl in H.
  - by simplify_eq.
  - repeat case_decide; try done; try (by simplify_eq).
    all: try (progress unfold at_index in H;
              destruct (c !! d_readPos st);
              cbn [mbind result_bind] in H; [|done]).
    all: apply IH in H; simpl in H; lia.
Qed.

(** [length c - readPos] rounds are enough: more fuel changes nothing. *)
Lemma decompress_loop_fuel fuel : ∀ c n st k,
  (length c - d_readPos st <= fuel)%nat →
  decompress_loop (fuel + k) c n st = decompress_loop fuel c n st.
Proof.
  induction fuel as [|fuel IH]; intros c n st k Hf.
  - rewrite !decompress_loop_exit by lia. done.
  - change (S fuel + k)%nat with (S (fuel + k)).
    rewrite !decompress_loop_S.
    repeat case_decide; try done.
    destruct (at_index c (d_readPos st)) as [mask| |]; try done.
    cbn [mbind result_bind].
    destruct (unpack_bits c n mask (bits_from 0) _) as [st'| |] eqn:Hu;
      try done.
    cbn [mbind result_bind]. apply IH.
    apply unpack_bits_readPos in Hu. simpl in Hu. lia.
Qed.
End decompress_fuel.

(** ** Missing literals *)

Section missing_literal.
Implicit Types (c bits pre lits : list Z).

(** When the bits that will be reached ask for more literals than the
    stream still holds, the inner loop throws. *)
Lemma unpack_bits_missing c n mask bits : ∀ buf readPos writePos,
  bit_range bits → (n <= MAX_SIZE)%nat →
  (length c - readPos
   < length (filter (λ b, Z.testbit mask b = true)
               (take (n - writePos) bits)))%nat →
  unpack_bits c n mask bits (DState buf readPos writePos)
  = Throw truncated_msg.
Proof.
  induction bits as [|bit bits IH]; intros buf readPos writePos Hb Hn Hlt.
  - rewrite take_nil in Hlt. simpl in Hlt. lia.
  - apply Forall_cons in Hb as [Hbit Hb]. cbn [unpack_bits d_writePos].
    destruct (decide (writePos < n)%nat) as [Hw|Hw].
    2:{ replace (n - writePos)%nat with 0%nat in Hlt by lia.
        simpl in Hlt. lia. }
    replace (n - writePos)%nat with (S (n - S writePos)) in Hlt by lia.
    cbn [take] in Hlt. rewrite filter_cons in Hlt.
    destruct (decide (Z.testbit mask bit = true)) as [Ht|Ht].
    + rewrite bool_decide_eq_true_2 by (by apply land_bit_testbit; [lia|]).
      cbn [d_readPos d_outBuf d_writePos].
      destruct (decide (length c <= readPos)%nat) as [|Hr]; [done|].
      rewrite decide_False by lia.
      unfold at_index.
      destruct (c !! readPos) as [v|] eqn:E.
      2:{ apply lookup_ge_None in E. lia. }
      cbn [mbind result_bind]. apply IH; [done|done|].
      cbn [length] in Hlt. lia.
    + rewrite bool_decide_eq_false_2 by (by rewrite land_bit_testbit by lia).
      cbn [d_readPos d_outBuf d_writePos].
      rewrite decide_False by lia. by apply IH.
Qed.

(** A stream of whole groups followed by a mask whose set bits, among
    those the requested length reaches, outnumber the literals behind it:
    [decompressPacket] throws. *)
Lemma decompressPacket_missing_literal pre mask lits n :
  (length pre `mod` 8 = 0)%nat → (length pre < n)%nat → (n <= 1024)%nat →
  (length lits
   < length (filter (λ b, Z.testbit mask b = true)
               (take (n - length pre) (bits_from 0))))%nat →
  decompressPacket (zs_encode pre ++ mask :: lits) n = Throw truncated_msg.
Proof.
  intros Hmod Hpre Hn Hlits. unfold decompressPacket.
  rewrite decide_False by (unfold MAX_SIZE; lia).
  set (c := zs_encode pre ++ mask :: lits).
  assert (length c = (groups (length pre)
                      + S (length (literals pre) + length lits))%nat) as ->.
  { subst c. rewrite length_app, length_zs_encode. simpl. lia. }
  rewrite (decompress_loop_prefix _ _ _ (mask :: lits));
    [|by rewrite drop_0|by left|lia|by unfold MAX_SIZE
     |by rewrite length_replicate].
  assert (c !! length (zs_encode pre) = Some mask) as Hmask.
  { subst c. by rewrite list_lookup_middle. }
  assert (length c = S (length (zs_encode pre) + length lits)) as Hc.
  { subst c. rewrite length_app. simpl. lia. }
  rewrite decompress_loop_S. cbn [d_readPos d_writePos d_outBuf Nat.add].
  rewrite decide_True by lia. rewrite decide_False by lia.
  unfold at_index. rewrite Hmask. cbn [mbind result_bind].
  rewrite unpack_bits_missing; [done|by apply bit_range_bits_from
                                |by unfold MAX_SIZE|].
  rewrite Hc. cbn [Nat.add].
  replace (S (length (zs_encode pre) + length lits)
           - S (length (zs_encode pre)))%nat with (length lits) by lia.
  done.
Qed.
End missing_literal.

(** ** The compression contract *)

(** The parts of the decompression contract that hold on every input: a
    requested length above 1024 is rejected, and a buffer that is returned
    has the requested length. *)
Lemma decompressPacket_rejects_long c n :
  (1024 < n)%nat → decompressPacket c n = Throw bad_length_msg.
Proof.
  intros Hn. unfold decompressPacket. by rewrite decide_True.
Qed.

Lemma decompressPacket_length c n out :
  decompressPacket c n = Ok out → length out = n.
Proof.
  unfold decompressPacket. case_decide; [done|].
  destruct (decompress_loop _ _ _ _) as [st| |]; try done.
  cbn [mbind result_bind]. intros [= <-]. apply length_resize.
Qed.

(** Whatever [compressPacket] returns has at most 1024 bytes. *)
Lemma compressPacket_length input out :
  compressPacket input = Ok out → (length out <= 1024)%nat.
Proof.
  rewrite compressPacket_spec. case_decide; [|done]. by intros [= <-].
Qed.

(** C1: for every buffer [b] of length at most 1024, if [compressPacket b]
    succeeds with [c] then [decompressPacket c (length b)] returns [b]. *)
Theorem compress_decompress_roundtrip (b c : list Z) :
  (length b <= 1024)%nat →
  compressPacket b = Ok c →
  decompressPacket c (length b) = Ok b.
Proof.
  intros Hb. rewrite compressPacket_spec. case_decide; [|done].
  intros [= <-]. by apply decompressPacket_zs_encode.
Qed.

Lemma compress_decompress_roundtrip_witness :
  (length [7; 0; 0; 255; 0; 0; 0; 0; 0; 1] <= 1024)%nat
  ∧ compressPacket [7; 0; 0; 255; 0; 0; 0; 0; 0; 1] = Ok [9; 7; 255; 2; 1]
  ∧ decompressPacket [9; 7; 255; 2; 1] 10
    = Ok [7; 0; 0; 255; 0; 0; 0; 0; 0; 1].
Proof.
  assert (compressPacket [7; 0; 0; 255; 0; 0; 0; 0; 0; 1] = Ok [9; 7; 255; 2; 1])
    as Hc by (vm_compute; reflexivity).
  split; [simpl; lia|]. split; [exact Hc|].
  apply (compress_decompress_roundtrip [7; 0; 0; 255; 0; 0; 0; 0; 0; 1]
           [9; 7; 255; 2; 1]); [simpl; lia|exact Hc].
Defined.

(** C3: [compressPacket] throws exactly when the compressed output, one
    mask byte per group of eight and one literal per non-zero byte, would
    exceed 1024 bytes; a buffer it returns is exactly that output, with
    nothing after it, and has at most 1024 bytes; the empty input gives
    the empty output. *)
Theorem compressPacket_contract (input : list Z) :
  match compressPacket input with
  | Ok out => out = zs_encode input ∧ (length out <= 1024)%nat
  | Throw msg => msg = overflow_msg ∧ (1024 < length (zs_encode input))%nat
  | Undefined _ => False
  end
  ∧ length (zs_encode input)
    = ((length input + 7) / 8 + length (filter (λ v : Z, v ≠ 0%Z) input))%nat
  ∧ compressPacket [] = Ok [].
Proof.
  split_and!.
  - rewrite compressPacket_spec. unfold MAX_SIZE. case_decide.
    + done.
    + split; [done|lia].
  - apply length_zs_encode.
  - reflexivity.
Qed.

(** C10: for an input of any length [n] with [Z] non-zero bytes, if
    [ceil (n / 8) + Z <= 1024] then [compressPacket] succeeds and its
    output has exactly [ceil (n / 8) + Z] bytes. *)
Theorem compressPacket_output_length (input : list Z) :
  let n := length input in
  let nonzero := length (filter (λ v : Z, v ≠ 0%Z) input) in
  ((n + 7) / 8 + nonzero <= 1024)%nat →
  ∃ out, compressPacket input = Ok out
         ∧ length out = ((n + 7) / 8 + nonzero)%nat.
Proof.
  intros n nonzero H. exists (zs_encode input).
  rewrite compressPacket_spec, length_zs_encode.
  by rewrite decide_True.
Qed.

Lemma compressPacket_output_length_witness :
  ((length sample_long_input + 7) / 8
   + length (filter (λ v : Z, v ≠ 0%Z) sample_long_input) <= 1024)%nat
  ∧ ∃ out, compressPacket sample_long_input = Ok out
           ∧ length out = 253%nat.
Proof.
  split; [vm_compute; lia|].
  apply (compressPacket_output_length sample_long_input).
  vm_compute. lia.
Defined.

(** The mask convention on every input: the first byte [compressPacket]
    returns is the mask of the first group, and its bit [i] (bit 0 the
    least significant) is set iff byte [i] of the input is non-zero. *)
Lemma compressPacket_first_mask input out (i : nat) :
  input ≠ [] → compressPacket input = Ok out → (i < 8)%nat →
  ∃ mask, out !! 0%nat = Some mask
          ∧ (Z.testbit mask (Z.of_nat i) = true
             ↔ ∃ v, input !! i = Some v ∧ v ≠ 0).
Proof.
  intros Hne Hc Hi. rewrite compressPacket_spec in Hc.
  case_decide; [|done]. injection Hc as <-.
  rewrite zs_encode_step by done. eexists. split; [done|].
  rewrite testbit_group_mask by done. by rewrite lookup_take_lt by done.
Qed.

(** C8: the 16-byte sample compresses to the five bytes
    [0b01000100, 1, 2, 0b00000001, 3] and decompresses back with
    [originalLength = 16]; in both masks bit [i], counted from the least
    significant, is set iff byte [i] of the group is non-zero. *)
Theorem compression_sample :
  compressPacket [0; 0; 1; 0; 0; 0; 2; 0; 3; 0; 0; 0; 0; 0; 0; 0]
  = Ok [68; 1; 2; 1; 3]
  ∧ decompressPacket [68; 1; 2; 1; 3] 16
    = Ok [0; 0; 1; 0; 0; 0; 2; 0; 3; 0; 0; 0; 0; 0; 0; 0]
  ∧ Forall (λ i : nat, Z.testbit 68 (Z.of_nat i)
                       = bool_decide ([0; 0; 1; 0; 0; 0; 2; 0] !!! i ≠ 0))
           (seq 0 8)
  ∧ Forall (λ i : nat, Z.testbit 1 (Z.of_nat i)
                       = bool_decide ([3; 0; 0; 0; 0; 0; 0; 0] !!! i ≠ 0))
           (seq 0 8).
Proof.
  split_and!.
  - vm_compute. reflexivity.
  - vm_compute. reflexivity.
  - repeat constructor.
  - repeat constructor.
Qed.

(** C2 (the code departs from the claim): a compressed buffer cut off at a
    group boundary is not rejected.  [1; 1; 1; 2] encodes nine bytes; with
    its second group removed, [decompressPacket] still returns nine bytes,
    the missing ones as zeros, and an empty buffer decompresses to
    zeros of any requested length. *)
Theorem decompressPacket_accepts_truncated :
  compressPacket [1; 0; 0; 0; 0; 0; 0; 0; 2] = Ok [1; 1; 1; 2]
  ∧ decompressPacket [1; 1] 9 = Ok [1; 0; 0; 0; 0; 0; 0; 0; 0]
  ∧ decompressPacket [] 8 = Ok [0; 0; 0; 0; 0; 0; 0; 0].
Proof. split_and!; vm_compute; reflexivity. Qed.

(** ** parseClientMessage *)

Section parse.
Implicit Types (buffer field : list Z).

Lemma until_zero_prefix field :
  take (length (until_zero field)) field = until_zero field.
Proof.
  induction field as [|b field IH]; [done|]. simpl.
  case_decide; [done|]. simpl. by rewrite IH.
Qed.

Lemma length_until_zero field :
  (length (until_zero field) <= length field)%nat.
Proof.
  induction field as [|b field IH]; [done|]. simpl.
  case_decide; simpl; lia.
Qed.

(** The scan stops at the first zero byte of the field, or at its end. *)
Lemma scan_string_spec buffer : ∀ remaining end_,
  scan_string buffer end_ remaining
  = (end_ + length (until_zero (take remaining (drop end_ buffer))))%nat.
Proof.
  induction remaining as [|remaining IH]; intros end_; simpl.
  - by rewrite Nat.add_0_r.
  - destruct (buffer !! end_) as [b|] eqn:Hb.
    + rewrite (drop_S _ b) by done. simpl.
      case_decide; simpl; [lia|]. rewrite IH. lia.
    + apply lookup_ge_None in Hb. rewrite drop_ge by lia. simpl. lia.
Qed.

(** [readString] returns the field up to its first zero byte and moves
    the offset by the whole width of the field. *)
Lemma readString_spec buffer offset maxLen :
  readString buffer offset maxLen
  = (until_zero (take maxLen (drop offset buffer)), (offset + maxLen)%nat).
Proof.
  unfold readString. f_equal. rewrite scan_string_spec.
  set (field := take maxLen (drop offset buffer)).
  replace (offset + length (until_zero field) - offset)%nat
    with (length (until_zero field)) by lia.
  rewrite <- (until_zero_prefix field) at 2.
  subst field. rewrite take_take. f_equal.
  pose proof (length_until_zero (take maxLen (drop offset buffer))) as H.
  rewrite length_take in H. lia.
Qed.

Lemma client_type_of_unknown t :
  ¬ (1 <= t <= 8) → client_type_of t = None.
Proof.
  intros Ht. destruct t as [|p|p]; [done| |done].
  do 4 (try destruct p as [p|p|]; try done; try lia).
Qed.
(** From 15 bytes on, every index [parseClientMessage] reads lies inside
    the buffer. *)
Lemma parseClientMessage_defined buffer :
  (15 <= length buffer)%nat → ∃ r, parseClientMessage buffer = Ok r.
Proof.
  intros Hlen. unfold parseClientMessage, HEADER_SIZE.
  rewrite decide_False by lia.
  assert (∀ i, (i < 15)%nat → ∃ b, at_index buffer i = Ok b) as Hat.
  { intros i Hi. unfold at_index.
    destruct (buffer !! i) as [b|] eqn:E; [by exists b|].
    apply lookup_ge_None in E. lia. }
  destruct (Hat 0%nat ltac:(lia)) as [t ->]. cbn [mbind result_bind].
  destruct (client_type_of t) as [[]|]; try (by eexists);
    cbn [Nat.add];
    repeat match goal with
    | |- context [at_index buffer ?i] =>
        let b := fresh "b" in
        destruct (Hat i ltac:(lia)) as [b ->]; cbn [mbind result_bind]
    end;
    repeat match goal with
    | |- context [read_words ?b ?n ?o ?v] => destruct (read_words b n o v)
    | |- context [readString ?b ?o ?n] => destruct (readString b o n)
    end; by eexists.
Qed.
End parse.

(** C7: a buffer shorter than the 5-byte header, or one whose type byte is
    none of the eight client message types 1 to 8, parses to [nullopt],
    and no error is raised. *)
Theorem parseClientMessage_drops (buffer : list Z) :
  (length buffer < 5)%nat
  ∨ (∃ t, buffer !! 0%nat = Some t ∧ ¬ (1 <= t <= 8)) →
  parseClientMessage buffer = Ok None.
Proof.
  intros H. unfold parseClientMessage, HEADER_SIZE.
  case_decide; [done|].
  destruct H as [H|(t & Ht & Hr)]; [lia|].
  unfold at_index. rewrite Ht. cbn [mbind result_bind].
  by rewrite client_type_of_unknown.
Qed.

Lemma parseClientMessage_drops_witness :
  parseClientMessage [2; 0; 0; 0] = Ok None
  ∧ parseClientMessage [9; 1; 0; 0; 0; 7; 7; 7] = Ok None.
Proof.
  split.
  - apply (parseClientMessage_drops [2; 0; 0; 0]). left. simpl. lia.
  - apply (parseClientMessage_drops [9; 1; 0; 0; 0; 7; 7; 7]). right.
    exists 9. split; [reflexivity|lia].
Defined.

(** C6: in a [NewConnection] message that holds the whole fixed-width
    payload, the three strings are read from fields of width 25, 45 and
    25 (at offsets 11, 36 and 81): each is the bytes of its field up to
    and excluding the first zero byte, and the read position moves on by
    the whole width wherever the zero is. *)
Theorem parse_NewConnection_strings (buffer : list Z) :
  (5 + 6 + 25 + 45 + 25 <= length buffer)%nat →
  buffer !! 0%nat = Some 1 →
  (∃ msg p,
     parseClientMessage buffer = Ok (Some msg)
     ∧ ClientMessageComplete.payload msg = C_NewConnection p
     ∧ ClientMatchData.matchId (NewConnectionPayload.matchData p)
       = until_zero (take 25 (drop 11 buffer))
     ∧ ClientMatchData.key (NewConnectionPayload.matchData p)
       = until_zero (take 45 (drop (11 + 25) buffer))
     ∧ ClientMatchData.environmentId (NewConnectionPayload.matchData p)
       = until_zero (take 25 (drop (11 + 25 + 45) buffer)))
  ∧ ∀ offset maxLen,
      readString buffer offset maxLen
      = (until_zero (take maxLen (drop offset buffer)),
         (offset + maxLen)%nat).
Proof.
  intros Hlen Ht. split; [|apply readString_spec].
  unfold parseClientMessage, HEADER_SIZE.
  rewrite decide_False by lia.
  unfold at_index. rewrite Ht. cbn [mbind result_bind client_type_of].
  rewrite !readString_spec. eexists _, _. split; [reflexivity|].
  cbn. done.
Qed.

Lemma parse_NewConnection_strings_witness :
  ∃ msg p,
    parseClientMessage sample_new_connection = Ok (Some msg)
    ∧ ClientMessageComplete.payload msg = C_NewConnection p
    ∧ ClientMatchData.matchId (NewConnectionPayload.matchData p) = [77; 49]
    ∧ ClientMatchData.key (NewConnectionPayload.matchData p) = [75]
    ∧ ClientMatchData.environmentId (NewConnectionPayload.matchData p)
      = replicate 25 69.
Proof.
  destruct (parse_NewConnection_strings sample_new_connection)
    as [(msg & p & H) _].
  - vm_compute. lia.
  - reflexivity.
  - exists msg, p. exact H.
Defined.

(** C9 (the code departs from the claim): a 5-byte buffer of type [Input]
    makes [parseClientMessage] read [buffer[13]], past the end of the
    buffer; so do the other types whose payload starts with a single byte
    read by [buffer[offset++]]. *)
Theorem parseClientMessage_reads_past_end :
  parseClientMessage [2; 0; 0; 0; 0] = Undefined (OutOfBounds 13 5)
  ∧ parseClientMessage [3; 0; 0; 0; 0] = Undefined (OutOfBounds 5 5)
  ∧ parseClientMessage [4; 0; 0; 0; 0] = Undefined (OutOfBounds 5 5)
  ∧ parseClientMessage [6; 0; 0; 0; 0] = Undefined (OutOfBounds 5 5)
  ∧ parseClientMessage [7; 0; 0; 0; 0] = Undefined (OutOfBounds 5 5)
  ∧ parseClientMessage [8; 0; 0; 0; 0] = Undefined (OutOfBounds 5 5).
Proof. split_and!; reflexivity. Qed.

(** ** The writer of serializeServerMessage *)

Section writer.
Implicit Types (buf bs : list Z) (s : wstate) (m : wstate → result wstate).

Lemma store_ok buf i x :
  (i < length buf)%nat → store buf i x = Ok (<[i:=x]> buf).
Proof. intros H. unfold store. by rewrite decide_True. Qed.

Lemma length_le_bytes width v : length (le_bytes width v) = width.
Proof. unfold le_bytes. by rewrite length_fmap, length_seq. Qed.

Lemma writeLittleEndian_loop_spec offset value : ∀ count i buf,
  (offset + i + count <= length buf)%nat →
  writeLittleEndian_loop buf offset i count value
  = Ok (splice buf (offset + i)
          ((λ j : nat, Z.land (Z.shiftr value (Z.of_nat j * 8)) 255)
             <$> seq i count)).
Proof.
  induction count as [|count IH]; intros i buf H; simpl.
  - by rewrite splice_nil.
  - rewrite store_ok by lia. cbn [mbind result_bind].
    rewrite IH by (rewrite length_insert; lia).
    replace (offset + S i)%nat with (S (offset + i)) by lia.
    by rewrite splice_insert_cons by lia.
Qed.

Lemma emits_put_u8 v : emits (put_u8 v) [v].
Proof.
  intros buf off H. simpl in H. unfold put_u8. simpl.
  rewrite store_ok by lia. cbn [mbind result_bind].
  rewrite <- (splice_nil (<[_:=_]> _) (S off)).
  rewrite splice_insert_cons by lia. do 2 f_equal. lia.
Qed.

Lemma emits_put_le width v : emits (put_le width v) (le_bytes width v).
Proof.
  intros buf off H. rewrite length_le_bytes in *.
  unfold put_le, writeLittleEndian. simpl.
  rewrite writeLittleEndian_loop_spec by lia. cbn [mbind result_bind].
  by rewrite Nat.add_0_r.
Qed.

Lemma emits_nil : emits Ok [].
Proof.
  intros buf off _. by rewrite splice_nil, Nat.add_0_r.
Qed.

Lemma emits_bind m1 m2 bs1 bs2 :
  emits m1 bs1 → emits m2 bs2 →
  emits (λ s, s' ← m1 s; m2 s') (bs1 ++ bs2).
Proof.
  intros H1 H2 buf off H. rewrite length_app in H.
  rewrite H1 by lia. cbn [mbind result_bind].
  rewrite H2 by (rewrite length_splice; lia).
  rewrite splice_app by lia. rewrite length_app.
  do 2 f_equal. lia.
Qed.

Lemma emits_ext m m' bs :
  (∀ s, m s = m' s) → emits m bs → emits m' bs.
Proof. intros Hext Hm buf off H. rewrite <- Hext. by apply Hm. Qed.

Lemma emits_for_each {A} (body : A → wstate → result wstate)
    (f : A → list Z) (l : list A) :
  (∀ x, x ∈ l → emits (body x) (f x)) →
  emits (for_each body l) (l ≫= f).
Proof.
  induction l as [|x l IH]; intros Hbody.
  - apply emits_nil.
  - rewrite bind_cons. simpl. apply emits_bind.
    + apply Hbody. by left.
    + apply IH. intros y Hy. apply Hbody. by right.
Qed.

Lemma length_bind_const {A} (f : A → list Z) (l : list A) n :
  (∀ x, x ∈ l → length (f x) = n) →
  length (l ≫= f) = (length l * n)%nat.
Proof.
  induction l as [|x l IH]; intros Hf; [done|].
  rewrite bind_cons, length_app, IH.
  - rewrite Hf by (by left). simpl. lia.
  - intros y Hy. apply Hf. by right.
Qed.

Lemma length_bind_sum {A} (f : A → list Z) (l : list A) :
  length (l ≫= f) = sum_list_with (λ x, length (f x)) l.
Proof.
  induction l as [|x l IH]; [done|].
  rewrite bind_cons, length_app, IH. done.
Qed.
End writer.

(** ** serializeServerMessage *)

Section serialize.
Implicit Types (bs : list Z) (maxPlayers : Z).

Lemma to_size_t_small z : 0 <= z < 2 ^ 64 → to_size_t z = z.
Proof. intros H. unfold to_size_t. by apply Z.mod_small. Qed.

Lemma size_add_small size x :
  0 <= size + x < 2 ^ 64 → size_add size x = size + x.
Proof. apply to_size_t_small. Qed.

Lemma result_bind_Ok {A B} (a : A) (f : A → result B) : Ok a ≫= f = f a.
Proof. reflexivity. Qed.

Lemma to_int_small z : 0 <= z < 2 ^ 31 → to_int z = z.
Proof. intros H. unfold to_int. rewrite Z.mod_small; lia. Qed.

Lemma int_mul_ok a b :
  INT_MIN <= a * b <= INT_MAX → int_mul a b = Ok (a * b).
Proof. intros H. unfold int_mul. by rewrite decide_True. Qed.

Lemma get_or_spec {A} (v : list A) i dflt :
  0 <= i → Z.of_nat (length v) < 2 ^ 31 →
  get_or v i dflt = Ok (default dflt (v !! Z.to_nat i)).
Proof.
  intros Hi Hv. unfold get_or. rewrite to_int_small by lia.
  case_decide as Hlt.
  - unfold at_index.
    destruct (v !! Z.to_nat i) eqn:E; [done|].
    apply lookup_ge_None in E. lia.
  - rewrite lookup_ge_None_2 by lia. done.
Qed.

(** The buffer returned once the three parts are written: the resize
    cuts what the first visitor allocated beyond the bytes written. *)
Lemma serializeServerMessage_emits header payload maxPlayers size bs :
  compute_size payload maxPlayers = Ok size →
  emits (write_payload payload maxPlayers) bs →
  (5 + length bs <= Z.to_nat size)%nat →
  serializeServerMessage header payload maxPlayers
  = Ok (server_type_value (ServerHeader.type header)
        :: le_bytes 4 (ServerHeader.sequence header) ++ bs).
Proof.
  intros Hsize Hemit Hfit. unfold serializeServerMessage.
  rewrite Hsize. cbn [mbind result_bind].
  set (buffer := replicate (Z.to_nat size) 0).
  assert (length buffer = Z.to_nat size) as Hlen
    by apply length_replicate.
  pose proof (emits_bind _ _ _ _
    (emits_put_u8 (server_type_value (ServerHeader.type header)))
    (emits_bind _ _ _ _
       (emits_put_le 4 (ServerHeader.sequence header)) Hemit)) as Hall.
  change ([?x] ++ ?l) with (x :: l) in Hall.
  set (out := _ :: _ ++ bs) in *.
  assert (length out = (5 + length bs)%nat) as Hout.
  { subst out. cbn [length]. rewrite length_app, length_le_bytes. lia. }
  specialize (Hall buffer 0%nat ltac:(lia)). cbv beta in Hall.
  destruct (put_u8 _ (WState buffer 0)) as [s1| |]; [|done..].
  cbn [mbind result_bind] in Hall |- *.
  destruct (put_le 4 _ s1) as [s2| |]; [|done..].
  cbn [mbind result_bind] in Hall |- *.
  rewrite Hall. cbn [mbind result_bind w_offset w_buffer Nat.add].
  rewrite length_splice by (cbn [Nat.add]; lia).
  case_decide.
  - rewrite resize_le by (rewrite length_splice; cbn [Nat.add]; lia).
    by rewrite take_splice.
  - f_equal. rewrite <- (take_ge (splice buffer 0 out) (length out))
      by (rewrite length_splice; cbn [Nat.add]; lia).
    by rewrite take_splice.
Qed.

(** Entry [i mod 4] of the table of configuration values. *)
Lemma PlayerConfigValues_at i :
  0 <= i →
  at_index PlayerConfigValues
    (Z.to_nat (i mod Z.of_nat (length PlayerConfigValues)))
  = Ok (PlayerConfigValues !!! Z.to_nat (i mod 4)).
Proof.
  intros Hi. change (Z.of_nat (length PlayerConfigValues)) with 4.
  pose proof (Z.mod_pos_bound i 4 ltac:(lia)) as Hm.
  assert (i mod 4 = 0 ∨ i mod 4 = 1 ∨ i mod 4 = 2 ∨ i mod 4 = 3)
    as [->|[->|[->| ->]]] by lia; reflexivity.
Qed.

Lemma emits_PlayersConfigurationData p maxPlayers :
  emits (write_payload (S_PlayersConfigurationData p) maxPlayers)
    (PlayersConfigurationDataPayload.numPlayers p
     :: (seqZ 0 maxPlayers ≫=
           λ i, le_bytes 2 (PlayerConfigValues !!! Z.to_nat (i mod 4)))).
Proof.
  change (?x :: ?l) with ([x] ++ l).
  apply emits_bind; [apply emits_put_u8|].
  apply emits_for_each. intros i Hi. apply elem_of_seqZ in Hi.
  eapply emits_ext; [|apply emits_put_le].
  intros s. simpl. rewrite PlayerConfigValues_at by lia. done.
Qed.
End serialize.

Section config_data.
Lemma lookup_bind_const {A} (f : A → list Z) (n : nat) : ∀ (l : list A) i j x,
  (∀ y, length (f y) = n) → l !! i = Some x → (j < n)%nat →
  (l ≫= f) !! (i * n + j)%nat = f x !! j.
Proof.
  induction l as [|y l IH]; intros i j x Hf Hi Hj; [done|].
  rewrite bind_cons. destruct i as [|i]; simpl in Hi.
  - simplify_eq. simpl. apply lookup_app_l. by rewrite Hf.
  - rewrite lookup_app_r by (rewrite Hf; lia).
    rewrite Hf. replace (S i * n + j - n)%nat with (i * n + j)%nat by lia.
    by apply IH.
Qed.

Lemma le_bytes_2 v :
  le_bytes 2 v = [v mod 2 ^ 8; (v / 2 ^ 8) mod 2 ^ 8].
Proof.
  unfold le_bytes. simpl.
  change 255 with (Z.ones 8). rewrite !Z.land_ones by lia.
  rewrite Z.shiftr_0_r, Z.shiftr_div_pow2 by lia. done.
Qed.

Lemma PlayerConfigValues_range i :
  0 <= PlayerConfigValues !!! Z.to_nat (i mod 4) < 2 ^ 16.
Proof.
  pose proof (Z.mod_pos_bound i 4 ltac:(lia)) as Hm.
  assert (i mod 4 = 0 ∨ i mod 4 = 1 ∨ i mod 4 = 2 ∨ i mod 4 = 3)
    as [->|[->|[->| ->]]] by lia; vm_compute; split; congruence.
Qed.
End config_data.

(** C5, amended: for every [PlayersConfigurationData] payload and every
    [maxPlayers >= 1] whose product with 4 fits an [int], the buffer
    returned has exactly [5 + 1 + 2 * maxPlayers] bytes: the header, the
    [numPlayers] byte, then [maxPlayers] little-endian [u16] values, the
    [i]-th being entry [i mod 4] of [{0, 257, 512, 769}], whatever
    [configValues] and [numPlayers] are. *)
Theorem serialize_PlayersConfigurationData
    (header : ServerHeader.t) (p : PlayersConfigurationDataPayload.t)
    (maxPlayers : Z) :
  1 <= maxPlayers → maxPlayers * 4 <= INT_MAX →
  ∃ buf,
    serializeServerMessage header (S_PlayersConfigurationData p) maxPlayers
    = Ok buf
    ∧ length buf = Z.to_nat (5 + 1 + 2 * maxPlayers)
    ∧ take 5 buf = server_type_value (ServerHeader.type header)
                   :: le_bytes 4 (ServerHeader.sequence header)
    ∧ buf !! 5%nat = Some (PlayersConfigurationDataPayload.numPlayers p)
    ∧ ∀ i, 0 <= i < maxPlayers →
        let value := [0; 257; 512; 769] !!! Z.to_nat (i mod 4) in
        buf !! Z.to_nat (6 + 2 * i) = Some (value mod 2 ^ 8)
        ∧ buf !! Z.to_nat (6 + 2 * i + 1) = Some (value / 2 ^ 8).
Proof.
  intros Hmin Hmax. unfold INT_MAX in Hmax.
  set (values := seqZ 0 maxPlayers ≫=
         λ i, le_bytes 2 (PlayerConfigValues !!! Z.to_nat (i mod 4))).
  assert (length values = (Z.to_nat maxPlayers * 2)%nat) as Hvalues.
  { subst values. rewrite (length_bind_const _ _ 2).
    - by rewrite length_seqZ.
    - intros. apply length_le_bytes. }
  eexists. split.
  - apply (serializeServerMessage_emits _ _ _ (6 + maxPlayers * 4)).
    + simpl. rewrite int_mul_ok by (unfold INT_MIN, INT_MAX; lia).
      cbn [mbind result_bind]. unfold size_add.
      rewrite (to_size_t_small (5 + 1)) by lia.
      rewrite to_size_t_small by lia. done.
    + apply emits_PlayersConfigurationData.
    + fold values. cbn [length]. rewrite Hvalues. lia.
  - fold values. split_and!.
    + cbn [length]. rewrite length_app, length_le_bytes. cbn [length].
      rewrite Hvalues. lia.
    + change (?t :: ?l ++ ?r) with ((t :: l) ++ r).
      apply take_app_length'. cbn [length]. by rewrite length_le_bytes.
    + change (?t :: ?l ++ ?r) with ((t :: l) ++ r).
      rewrite lookup_app_r by (cbn [length]; rewrite length_le_bytes; lia).
      cbn [length]. by rewrite length_le_bytes.
    + intros i Hi value.
      change (?t :: ?l ++ ?n :: ?r) with ((t :: l ++ [n]) ++ r).
      assert (length (server_type_value (ServerHeader.type header)
                      :: le_bytes 4 (ServerHeader.sequence header)
                      ++ [PlayersConfigurationDataPayload.numPlayers p])
              = 6%nat) as Hpre
        by (cbn [length]; by rewrite length_app, length_le_bytes).
      rewrite !lookup_app_r by (rewrite Hpre; lia). rewrite Hpre.
      assert (seqZ 0 maxPlayers !! Z.to_nat i = Some i) as Hseq.
      { apply lookup_seqZ. lia. }
      pose proof (lookup_bind_const
        (λ i, le_bytes 2 (PlayerConfigValues !!! Z.to_nat (i mod 4))) 2
        (seqZ 0 maxPlayers) (Z.to_nat i)) as Hlk.
      replace (Z.to_nat (6 + 2 * i) - 6)%nat
        with (Z.to_nat i * 2 + 0)%nat by lia.
      replace (Z.to_nat (6 + 2 * i + 1) - 6)%nat
        with (Z.to_nat i * 2 + 1)%nat by lia.
      subst values.
      rewrite (Hlk 0%nat i), (Hlk 1%nat i);
        try done; try lia; try (intros; apply length_le_bytes).
      rewrite le_bytes_2. simpl.
      pose proof (PlayerConfigValues_range i) as Hr.
      split; [done|]. f_equal. apply Z.mod_small.
      change (PlayerConfigValues !!! Z.to_nat (i mod 4)) with value in Hr.
      split; [apply Z.div_pos; lia|].
      apply Z.div_lt_upper_bound; lia.
Qed.

Lemma serialize_PlayersConfigurationData_witness :
  ∃ buf,
    serializeServerMessage (ServerHeader.mk PlayersConfigurationData 258)
      (S_PlayersConfigurationData
         (PlayersConfigurationDataPayload.mk 2 [9; 9; 9])) 5
    = Ok buf
    ∧ length buf = 16%nat
    ∧ take 5 buf = [10; 2; 1; 0; 0]
    ∧ buf !! 5%nat = Some 2
    ∧ ∀ i, 0 <= i < 5 →
        let value := [0; 257; 512; 769] !!! Z.to_nat (i mod 4) in
        buf !! Z.to_nat (6 + 2 * i) = Some (value mod 2 ^ 8)
        ∧ buf !! Z.to_nat (6 + 2 * i + 1) = Some (value / 2 ^ 8).
Proof.
  apply (serialize_PlayersConfigurationData
           (ServerHeader.mk PlayersConfigurationData 258)
           (PlayersConfigurationDataPayload.mk 2 [9; 9; 9]) 5).
  - lia.
  - unfold INT_MAX. lia.
Defined.

(** C5 as stated fails: with [maxPlayers = 2^29] the product
    [maxPlayers * 4] of the size computation overflows [int], and no
    buffer of [6 + 2 * maxPlayers] bytes is returned. *)
Lemma serialize_PlayersConfigurationData_overflow :
  serializeServerMessage (ServerHeader.mk PlayersConfigurationData 0)
    (S_PlayersConfigurationData (PlayersConfigurationDataPayload.mk 2 []))
    536870912
  = Undefined SignedOverflow.
Proof. reflexivity. Qed.

(** ** The PlayerInput message *)

Section player_input.
Variable p : PlayerInputPayload.t.
Hypothesis Hwf : wf_PlayerInput p.

Implicit Types (maxPlayers i r : Z) (l : list Z).

Lemma emits_pure {A} (x : result A) (a : A)
    (k : A → wstate → result wstate) bs :
  x = Ok a → emits (k a) bs → emits (λ s, v ← x; k v s) bs.
Proof. intros -> H. exact H. Qed.

Lemma emits_write_frames arr numFrames :
  emits (write_frames arr numFrames) (frames_bytes arr numFrames).
Proof.
  unfold write_frames, frames_bytes. apply emits_for_each.
  intros f _. apply emits_put_le.
Qed.

Lemma frames_of_range i : 0 <= frames_of p i < 2 ^ 8.
Proof.
  destruct Hwf as (Hnf & _). unfold frames_of.
  destruct (_ !! _) as [nf|] eqn:E; simpl; [|lia].
  by eapply (Forall_lookup_1 _ _ _ _ Hnf).
Qed.

Lemma emits_PlayerInput maxPlayers r :
  float_to_int16
    (float_mul (PlayerInputPayload.rift p) (float_of_int 100)) = Ok r →
  emits (write_payload (S_PlayerInput p) maxPlayers)
        (PlayerInput_bytes p maxPlayers r).
Proof.
  intros Hr. destruct Hwf as (Hnf & Hsf & Hlnf & Hipf).
  unfold PlayerInput_bytes. cbn [write_payload].
  apply emits_bind; [apply emits_put_u8|].
  apply emits_bind.
  { apply emits_for_each. intros i Hi. apply elem_of_seqZ in Hi.
    eapply (emits_pure _ _ (λ sf, put_le 4 sf));
      [apply get_or_spec; lia|apply emits_put_le]. }
  apply emits_bind.
  { apply emits_for_each. intros i Hi. apply elem_of_seqZ in Hi.
    eapply (emits_pure _ _ (λ nf, put_u8 nf));
      [apply get_or_spec; lia|apply emits_put_u8]. }
  do 4 (apply emits_bind; [apply emits_put_le|]).
  eapply (emits_pure _ r
           (λ riftInt s, s ← put_le 2 riftInt s;
                         s ← put_le 4 _ s; for_each _ _ s)); [done|].
  do 2 (apply emits_bind; [apply emits_put_le|]).
  apply emits_for_each. intros i Hi. apply elem_of_seqZ in Hi.
  eapply (emits_pure _ _
           (λ arr s, numFrames ← get_or _ i 0; write_frames arr numFrames s));
    [apply get_or_spec; lia|].
  eapply (emits_pure _ _ (λ numFrames, write_frames _ numFrames));
    [apply get_or_spec; lia|].
  apply emits_write_frames.
Qed.

(** Total number of frames of the players in [l]. *)
Lemma size_loop l : ∀ size,
  (∀ i, i ∈ l →
        0 <= i < Z.of_nat (length (PlayerInputPayload.numFrames p))) →
  0 <= size → size + 4 * 255 * Z.of_nat (length l) < 2 ^ 64 →
  for_each
    (λ i size,
       nf ← at_index (PlayerInputPayload.numFrames p) (Z.to_nat i);
       nf4 ← int_mul nf 4;
       Ok (size_add size nf4)) l size
  = Ok (size + 4 * Z.of_nat (sum_list_with (λ i, Z.to_nat (frames_of p i)) l)).
Proof.
  induction l as [|i l IH]; intros size Hl Hs Hb.
  - simpl. f_equal. lia.
  - cbn [for_each sum_list_with length] in *.
    pose proof (frames_of_range i) as Hi.
    assert (0 <= i < Z.of_nat (length (PlayerInputPayload.numFrames p)))
      as Hin by (apply Hl; by left).
    unfold at_index, frames_of in *.
    destruct (PlayerInputPayload.numFrames p !! Z.to_nat i) as [nf|] eqn:E.
    2:{ apply lookup_ge_None in E. lia. }
    simpl in Hi. cbn [mbind result_bind].
    rewrite int_mul_ok by (unfold INT_MIN, INT_MAX; lia).
    cbn [mbind result_bind]. unfold size_add.
    rewrite to_size_t_small by lia.
    rewrite IH; [|intros j Hj; apply Hl; by right|lia|lia].
    f_equal. simpl. lia.
Qed.

Lemma frames_sum_beyond a n :
  Z.of_nat (length (PlayerInputPayload.numFrames p)) <= a →
  sum_list_with (λ i, Z.to_nat (frames_of p i)) (seqZ a n) = 0%nat.
Proof.
  intros Ha.
  assert (∀ l, (∀ i, i ∈ l → a <= i) →
               sum_list_with (λ i, Z.to_nat (frames_of p i)) l = 0%nat)
    as Hz.
  { induction l as [|i l IH]; intros Hl; [done|]. simpl.
    rewrite IH by (intros j Hj; apply Hl; by right).
    unfold frames_of. rewrite lookup_ge_None_2; [done|].
    specialize (Hl i ltac:(by left)). lia. }
  apply Hz. intros i Hi. apply elem_of_seqZ in Hi. lia.
Qed.

Lemma frames_sum_min maxPlayers :
  0 <= maxPlayers →
  sum_list_with (λ i, Z.to_nat (frames_of p i))
    (seqZ 0 (Z.min maxPlayers
               (Z.of_nat (length (PlayerInputPayload.numFrames p)))))
  = sum_list_with (λ i, Z.to_nat (frames_of p i)) (seqZ 0 maxPlayers).
Proof.
  intros Hm.
  set (len := Z.of_nat (length (PlayerInputPayload.numFrames p))).
  destruct (decide (maxPlayers <= len)); [by rewrite Z.min_l by lia|].
  rewrite Z.min_r by lia.
  replace (seqZ 0 maxPlayers) with (seqZ 0 (len + (maxPlayers - len)))
    by (f_equal; lia).
  rewrite seqZ_app by lia. rewrite sum_list_with_app.
  rewrite (frames_sum_beyond (0 + len)) by (subst len; lia). lia.
Qed.

Lemma compute_size_PlayerInput maxPlayers :
  0 <= maxPlayers → maxPlayers * 4 <= INT_MAX →
  compute_size (S_PlayerInput p) maxPlayers
  = Ok (20 + 5 * maxPlayers
        + 4 * Z.of_nat (sum_list_with (λ i, Z.to_nat (frames_of p i))
                          (seqZ 0 maxPlayers))).
Proof.
  intros Hm Hmax. destruct Hwf as (Hnf & Hsf & Hlnf & Hipf).
  unfold INT_MAX in Hmax. cbn [compute_size].
  rewrite int_mul_ok by (unfold INT_MIN, INT_MAX; lia).
  rewrite result_bind_Ok.
  rewrite (size_add_small 5 1) by lia.
  rewrite (size_add_small (5 + 1)) by lia.
  rewrite (size_add_small (5 + 1 + _)) by lia.
  rewrite (size_add_small (5 + 1 + _ + _)) by lia.
  rewrite (size_add_small (5 + 1 + _ + _ + _)) by lia.
  rewrite (size_add_small (5 + 1 + _ + _ + _ + _)) by lia.
  rewrite to_int_small by lia.
  rewrite size_loop.
  - rewrite frames_sum_min by done. f_equal. lia.
  - intros i Hi. apply elem_of_seqZ in Hi. lia.
  - lia.
  - rewrite length_seqZ. lia.
Qed.

Lemma length_frames_bytes arr nf :
  length (frames_bytes arr nf) = (4 * Z.to_nat nf)%nat.
Proof.
  unfold frames_bytes. rewrite (length_bind_const _ _ 4).
  - rewrite length_seq. lia.
  - intros. apply length_le_bytes.
Qed.

Lemma length_PlayerInput_bytes maxPlayers r :
  0 <= maxPlayers →
  length (PlayerInput_bytes p maxPlayers r)
  = (15 + 5 * Z.to_nat maxPlayers
     + 4 * sum_list_with (λ i, Z.to_nat (frames_of p i))
             (seqZ 0 maxPlayers))%nat.
Proof.
  intros Hm. unfold PlayerInput_bytes.
  rewrite !length_app, !length_le_bytes.
  rewrite (length_bind_const _ _ 4) by (intros; apply length_le_bytes).
  rewrite (length_bind_const _ _ 1) by done.
  rewrite length_bind_sum, length_seqZ. cbn [length].
  assert (∀ l, sum_list_with
                 (λ pi, length (frames_bytes
                    (default [] (PlayerInputPayload.inputPerFrame p
                                   !! Z.to_nat pi)) (frames_of p pi))) l
               = (4 * sum_list_with (λ i, Z.to_nat (frames_of p i)) l)%nat)
    as ->.
  { induction l as [|i l IH]; [done|]. simpl sum_list_with.
    rewrite IH, length_frames_bytes. lia. }
  lia.
Qed.
End player_input.

Section rift_field.
Lemma to_i16_le_bytes r :
  - 2 ^ 15 <= r <= 2 ^ 15 - 1 →
  to_i16 (r mod 2 ^ 8 + 2 ^ 8 * ((r / 2 ^ 8) mod 2 ^ 8)) = r.
Proof.
  intros Hr. unfold to_i16.
  change (2 ^ 8) with 256. change (2 ^ 15) with 32768 in *.
  change (2 ^ 16) with 65536.
  Z.div_mod_to_equations. lia.
Qed.

Lemma wire_i16_le_bytes (pre post : list Z) r :
  - 2 ^ 15 <= r <= 2 ^ 15 - 1 →
  wire_i16 (pre ++ le_bytes 2 r ++ post) (length pre) = Some r.
Proof.
  intros Hr. unfold wire_i16. rewrite le_bytes_2.
  rewrite !(lookup_app_r pre) by lia.
  replace (length pre - length pre)%nat with 0%nat by lia.
  replace (S (length pre) - length pre)%nat with 1%nat by lia.
  simpl. by rewrite to_i16_le_bytes.
Qed.

Lemma float_to_int16_trunc x r :
  float_trunc x = Some r → - 2 ^ 15 <= r <= 2 ^ 15 - 1 →
  float_to_int16 x = Ok r.
Proof.
  intros Hx Hr. unfold float_to_int16. rewrite Hx. by rewrite decide_True.
Qed.
End rift_field.

(** C4, amended: for every [PlayerInputPayload] holding values of its C++
    types and every [maxPlayers >= 0] whose product with 4 fits an [int],
    the rift field of the message is the [int16] obtained from the [float]
    product [rift * 100] by discarding its fractional part (rounding
    towards zero), provided that integer lies in the [int16] range. *)
Theorem serialize_PlayerInput_rift
    (header : ServerHeader.t) (p : PlayerInputPayload.t)
    (maxPlayers r : Z) :
  wf_PlayerInput p →
  0 <= maxPlayers → maxPlayers * 4 <= INT_MAX →
  float_trunc (float_mul (PlayerInputPayload.rift p) (float_of_int 100))
  = Some r →
  - 2 ^ 15 <= r <= 2 ^ 15 - 1 →
  ∃ buf,
    serializeServerMessage header (S_PlayerInput p) maxPlayers = Ok buf
    ∧ wire_i16 buf (rift_offset maxPlayers) = Some r.
Proof.
  intros Hwf Hm Hmax Htrunc Hr.
  pose proof (float_to_int16_trunc _ _ Htrunc Hr) as Hcast.
  eexists. split.
  - eapply serializeServerMessage_emits.
    + by apply compute_size_PlayerInput.
    + by apply emits_PlayerInput.
    + rewrite length_PlayerInput_bytes by done. lia.
  - unfold PlayerInput_bytes.
    set (sf := seqZ 0 maxPlayers ≫= _).
    set (nf := seqZ 0 maxPlayers ≫= λ i, [frames_of p i]).
    set (post := le_bytes 4 (PlayerInputPayload.checksumAckFrame p) ++ _).
    assert (length sf = (Z.to_nat maxPlayers * 4)%nat) as Hsf.
    { subst sf. rewrite (length_bind_const _ _ 4).
      - by rewrite length_seqZ.
      - intros. apply length_le_bytes. }
    assert (length nf = (Z.to_nat maxPlayers * 1)%nat) as Hnf.
    { subst nf. rewrite (length_bind_const _ _ 1); [|done].
      by rewrite length_seqZ. }
    set (pre := server_type_value (ServerHeader.type header)
                :: le_bytes 4 (ServerHeader.sequence header)
                ++ [PlayerInputPayload.numPlayers p] ++ sf ++ nf
                ++ le_bytes 2 (PlayerInputPayload.numPredictedOverrides p)
                ++ le_bytes 2 (PlayerInputPayload.numZeroedOverrides p)
                ++ le_bytes 2 (PlayerInputPayload.ping p)
                ++ le_bytes 2 (PlayerInputPayload.packetsLossPercent p)).
    assert (rift_offset maxPlayers = length pre) as ->.
    { subst pre. cbn [length]. rewrite !length_app, !length_le_bytes.
      cbn [length]. rewrite Hsf, Hnf. unfold rift_offset. lia. }
    rewrite <- (wire_i16_le_bytes pre post r) by done.
    f_equal. subst pre. cbn [app]. f_equal.
    rewrite <- app_assoc. f_equal. cbn [app]. f_equal.
    by rewrite <- !app_assoc.
Qed.

Lemma serialize_PlayerInput_rift_witness :
  ∃ buf,
    serializeServerMessage (ServerHeader.mk PlayerInput 1)
      (S_PlayerInput sample_PlayerInput) 2 = Ok buf
    ∧ wire_i16 buf (rift_offset 2) = Some 1.
Proof.
  apply (serialize_PlayerInput_rift (ServerHeader.mk PlayerInput 1)
           sample_PlayerInput 2 1).
  - unfold wf_PlayerInput. simpl. split_and!; [|lia..].
    repeat constructor; lia.
  - lia.
  - unfold INT_MAX. lia.
  - vm_compute. reflexivity.
  - lia.
Defined.

(** C4 as stated fails: with [rift = 0.015625] the product [rift * 100]
    is [1.5625], which rounds to 2, and the rift field holds 1. *)
Lemma rift_field_not_rounded :
  serializeServerMessage (ServerHeader.mk PlayerInput 1)
    (S_PlayerInput sample_PlayerInput) 2
  = Ok [4; 1; 0; 0; 0; 2; 10; 0; 0; 0; 20; 0; 0; 0; 2; 1; 0; 0; 0; 0; 30;
        0; 1; 0; 1; 0; 7; 0; 0; 0; 1; 0; 0; 0; 2; 0; 0; 0; 3; 0; 0; 0]
  ∧ wire_i16 [4; 1; 0; 0; 0; 2; 10; 0; 0; 0; 20; 0; 0; 0; 2; 1; 0; 0; 0; 0;
              30; 0; 1; 0; 1; 0; 7; 0; 0; 0; 1; 0; 0; 0; 2; 0; 0; 0; 3; 0;
              0; 0] (rift_offset 2) = Some 1
  ∧ spec_round (float_mul (PlayerInputPayload.rift sample_PlayerInput)
                          (float_of_int 100)) = Some 2.
Proof. split_and!; vm_compute; reflexivity. Qed.

(* ================================================================= *)
(** * Further properties of the codec *)

Section encode_more.
Implicit Types (b pre rest g junk : list Z).

Lemma zs_encode_app pre rest :
  (length pre `mod` 8 = 0)%nat →
  zs_encode (pre ++ rest) = zs_encode pre ++ zs_encode rest.
Proof.
  remember (length pre) as k eqn:Hk. revert pre Hk.
  induction (lt_wf k) as [k _ IH]. intros pre -> Hmod.
  destruct (decide (pre = [])) as [->|Hne]; [done|].
  assert (0 < length pre)%nat by (destruct pre; simpl; [done|lia]).
  assert (8 <= length pre)%nat as H8.
  { destruct (decide (length pre < 8)%nat) as [Hlt|]; [|lia].
    rewrite Nat.mod_small in Hmod by done. lia. }
  rewrite (zs_encode_step (pre ++ rest)) by (by destruct pre).
  rewrite (zs_encode_step pre) by done.
  rewrite take_app_le, drop_app_le by lia.
  rewrite (IH (length (drop 8 pre))); [|rewrite length_drop; lia|done|].
  - simpl. by rewrite <- app_assoc.
  - rewrite length_drop.
    replace (length pre) with (length pre - 8 + 1 * 8)%nat in Hmod by lia.
    by rewrite Nat.Div0.mod_add in Hmod.
Qed.

Lemma mask_bits_replicate_0 bits : ∀ k, mask_bits bits (replicate k 0) = 0.
Proof.
  induction bits as [|bit bits IH]; intros k; [done|].
  destruct k as [|k]; [done|]. simpl. by rewrite IH.
Qed.

Lemma mask_bits_zeros bits : ∀ g k,
  mask_bits bits (g ++ replicate k 0) = mask_bits bits g.
Proof.
  induction bits as [|bit bits IH]; intros g k; [done|].
  destruct g as [|v g].
  - rewrite app_nil_l, mask_bits_replicate_0. done.
  - simpl. by rewrite IH.
Qed.

Lemma literals_zeros k : literals (replicate k 0) = [].
Proof.
  induction k as [|k IH]; [done|]. simpl. by rewrite literals_cons.
Qed.

(** Zeros that complete the last group do not change the encoding. *)
Lemma zs_encode_pad b k :
  (0 < length b `mod` 8)%nat → (length b `mod` 8 + k <= 8)%nat →
  zs_encode (b ++ replicate k 0) = zs_encode b.
Proof.
  intros Hpos Hk.
  set (q := (length b - length b `mod` 8)%nat).
  pose proof (Nat.Div0.mod_le (length b) 8) as Hle.
  pose proof (Nat.div_mod_eq (length b) 8) as Hdm.
  assert (q `mod` 8 = 0)%nat as Hq8.
  { subst q. replace (length b - length b `mod` 8)%nat
      with (0 + (length b / 8) * 8)%nat by lia.
    by rewrite Nat.Div0.mod_add. }
  pose proof (take_drop q b) as Hb.
  assert (length (take q b) = q) as Hq by (rewrite length_take; lia).
  assert (length (drop q b) = length b `mod` 8)%nat as Hg
    by (rewrite length_drop; lia).
  remember (take q b) as pre eqn:Hpre. remember (drop q b) as g eqn:Hgd.
  clear Hpre Hgd. rewrite <- Hb, <- app_assoc.
  rewrite (zs_encode_app pre (g ++ _)) by (by rewrite Hq).
  rewrite (zs_encode_app pre g) by (by rewrite Hq). f_equal.
  assert (g ≠ []) as Hne by (intros ->; cbn [length] in Hg; lia).
  rewrite (zs_encode_step (g ++ _)) by (by destruct g).
  rewrite (zs_encode_step g) by done.
  rewrite !take_ge by (rewrite ?length_app, ?length_replicate; lia).
  rewrite !drop_ge by (rewrite ?length_app, ?length_replicate; lia).
  unfold group_mask. rewrite mask_bits_zeros, literals_app, literals_zeros.
  by rewrite app_nil_r.
Qed.

Lemma mask_of_group_take mask bits g r :
  mask_of_group mask bits g → mask_of_group mask bits (take r g).
Proof.
  intros H j b v Hb Hg. apply lookup_take_Some in Hg as [Hg _].
  by apply (H j).
Qed.
End encode_more.

Section decompress_more.
Implicit Types (b junk : list Z).

Lemma length_zs_encode_ge l : (groups (length l) <= length (zs_encode l))%nat.
Proof. rewrite length_zs_encode. lia. Qed.

(** The first [n] bytes of the source come back from its encoding, with
    whatever follows the encoding in the buffer ignored. *)
Lemma decompressPacket_take b junk n :
  (n <= length b)%nat → (n <= 1024)%nat →
  decompressPacket (zs_encode b ++ junk) n = Ok (take n b).
Proof.
  intros Hn Hmax. unfold decompressPacket.
  rewrite decide_False by (unfold MAX_SIZE; lia).
  set (r := (n `mod` 8)%nat). set (q := (n - r)%nat).
  pose proof (Nat.Div0.mod_le n 8) as Hle.
  pose proof (Nat.div_mod_eq n 8) as Hdm.
  pose proof (Nat.mod_upper_bound n 8 ltac:(lia)) as Hr8. fold r in Hle, Hdm, Hr8.
  assert (q `mod` 8 = 0)%nat as Hq8.
  { subst q. replace (n - r)%nat with (0 + (n / 8) * 8)%nat by lia.
    by rewrite Nat.Div0.mod_add. }
  assert (length (take q b) = q) as Hq by (rewrite length_take; lia).
  assert (length (drop q b) = length b - q)%nat as Hrest by apply length_drop.
  assert (zs_encode b ++ junk
          = zs_encode (take q b) ++ zs_encode (drop q b) ++ junk) as Hc.
  { rewrite <- (take_drop q b) at 1.
    rewrite zs_encode_app by (by rewrite Hq). by rewrite <- app_assoc. }
  remember (take q b) as pre eqn:Hpre.
  remember (drop q b) as rest eqn:Hrestd.
  remember (zs_encode b ++ junk) as c eqn:Hcdef. clear Hcdef.
  pose proof (length_zs_encode_ge pre) as Hge.
  assert (length c = (groups (length pre)
                      + (length c - groups (length pre)))%nat) as Hfuel.
  { assert (length (zs_encode pre) <= length c)%nat
      by (rewrite Hc, length_app; lia). lia. }
  rewrite Hfuel.
  rewrite (decompress_loop_prefix _ _ _ (zs_encode rest ++ junk));
    [|by rewrite drop_0|by left; rewrite Hq|lia|by unfold MAX_SIZE
     |by rewrite length_replicate].
  cbn [Nat.add]. rewrite Hq.
  set (buf := splice (replicate MAX_SIZE 0) 0 pre).
  assert (length buf = MAX_SIZE) as Hbuf.
  { subst buf. rewrite length_splice; rewrite length_replicate; [done|].
    unfold MAX_SIZE. cbn [Nat.add]. lia. }
  destruct (decide (r = 0)%nat) as [Hr0|Hr0].
  - rewrite decompress_loop_exit by (simpl; lia).
    cbn [mbind result_bind d_outBuf]. f_equal. subst buf.
    rewrite resize_le
      by (rewrite length_splice; rewrite ?length_replicate;
          unfold MAX_SIZE; cbn [Nat.add]; lia).
    rewrite take_splice by lia. subst pre q. f_equal. lia.
  - assert (rest ≠ []) as Hne.
    { intros E. rewrite E in Hrest. cbn [length] in Hrest. lia. }
    rewrite (zs_encode_step rest) in Hc by done.
    set (g := take 8 rest) in *. cbn [app] in Hc.
    assert (c !! length (zs_encode pre) = Some (group_mask g)) as Hmask.
    { rewrite Hc. by rewrite list_lookup_middle. }
    assert (length (zs_encode pre) < length c)%nat
      by (by eapply lookup_lt_Some).
    rewrite Hq in Hge.
    destruct (length c - groups q)%nat as [|k] eqn:Hk; [lia|].
    rewrite decompress_loop_S. cbn [d_readPos d_writePos d_outBuf].
    rewrite decide_True by lia. rewrite decide_False by lia.
    unfold at_index. rewrite Hmask. cbn [mbind result_bind].
    assert (length g = Nat.min 8 (length rest)) as Hg by apply length_take.
    assert (length (take r g) = r) as Hg' by (rewrite length_take; lia).
    assert (drop (S (length (zs_encode pre))) c
            = literals (take r g)
              ++ literals (drop r g) ++ zs_encode (drop 8 rest) ++ junk)
      as Hdrop.
    { rewrite Hc. rewrite (cons_middle (group_mask g)), (assoc_L (++)).
      rewrite drop_app_length' by (rewrite length_app; simpl; lia).
      rewrite <- (take_drop r g) at 1. rewrite literals_app.
      by rewrite <- !app_assoc. }
    rewrite (unpack_bits_spec _ _ _ _ (take r g));
      [|by apply bit_range_bits_from
       |apply mask_of_group_take, mask_of_group_mask
       |rewrite length_bits_from_0; lia|right; lia|lia|by unfold MAX_SIZE
       |done|by rewrite Hdrop, take_app_length].
    cbn [mbind result_bind].
    rewrite decompress_loop_exit by (simpl; lia).
    cbn [mbind result_bind d_outBuf]. f_equal. subst buf.
    replace q with (0 + length pre)%nat at 1 by lia.
    rewrite splice_app
      by (rewrite length_replicate; unfold MAX_SIZE; lia).
    rewrite resize_le
      by (rewrite length_splice; rewrite ?length_replicate, ?length_app;
          unfold MAX_SIZE; cbn [Nat.add]; lia).
    rewrite take_splice by (rewrite length_app; lia).
    subst g pre rest. rewrite take_take, Nat.min_l by lia.
    rewrite take_take_drop. f_equal. lia.
Qed.
End decompress_more.

Section decompress_resize.
Implicit Types (b : list Z).

Lemma decompressPacket_encode_resize b n :
  (n <= 1024)%nat → decompressPacket (zs_encode b) n = Ok (resize n 0 b).
Proof.
  intros Hn. destruct (decide (n <= length b)%nat) as [Hle|Hgt].
  { rewrite <- (app_nil_r (zs_encode b)).
    rewrite decompressPacket_take by done. by rewrite resize_le. }
  rewrite resize_spec, take_ge by lia.
  pose proof (Nat.mod_upper_bound (length b) 8 ltac:(lia)) as Hm.
  destruct (decide (length b `mod` 8 = 0)%nat) as [Hm0|Hm0].
  { by rewrite decompressPacket_short_input by lia. }
  set (k := (8 - length b `mod` 8)%nat).
  rewrite <- (zs_encode_pad b k) by (subst k; lia).
  assert (length (b ++ replicate k 0) = (length b + k)%nat) as Hlen
    by (by rewrite length_app, length_replicate).
  assert ((length b + k) `mod` 8 = 0)%nat as Hmod.
  { pose proof (Nat.div_mod_eq (length b) 8) as Hdm.
    replace (length b + k)%nat with (0 + (length b / 8 + 1) * 8)%nat
      by (subst k; lia).
    by rewrite Nat.Div0.mod_add. }
  destruct (decide (n <= length b + k)%nat) as [Hle|Hgt'].
  - rewrite <- (app_nil_r (zs_encode _)).
    rewrite decompressPacket_take by (rewrite ?Hlen; lia).
    rewrite take_app, take_ge, take_replicate by lia.
    do 3 f_equal. lia.
  - rewrite decompressPacket_short_input by (rewrite ?Hlen; lia).
    rewrite Hlen, <- app_assoc, <- replicate_add.
    do 3 f_equal. lia.
Qed.
End decompress_resize.

(** X1: decompressing what [compressPacket] returned, with any requested
    length up to 1024, gives the source cut or zero-padded to that length. *)
Theorem decompress_compress_any_length (b c : list Z) (n : nat) :
  compressPacket b = Ok c → (n <= 1024)%nat →
  decompressPacket c n = Ok (resize n 0 b).
Proof.
  rewrite compressPacket_spec. case_decide; [|done].
  intros [= <-] Hn. by apply decompressPacket_encode_resize.
Qed.

Lemma decompress_compress_any_length_witness :
  compressPacket [0; 4; 0; 0; 0; 0; 0; 0; 9; 1] = Ok [2; 4; 3; 9; 1]
  ∧ decompressPacket [2; 4; 3; 9; 1] 12
    = Ok [0; 4; 0; 0; 0; 0; 0; 0; 9; 1; 0; 0]
  ∧ decompressPacket [2; 4; 3; 9; 1] 9 = Ok [0; 4; 0; 0; 0; 0; 0; 0; 9].
Proof.
  assert (compressPacket [0; 4; 0; 0; 0; 0; 0; 0; 9; 1] = Ok [2; 4; 3; 9; 1])
    as Hc by (vm_compute; reflexivity).
  split_and!; [exact Hc| |].
  - apply (decompress_compress_any_length
             [0; 4; 0; 0; 0; 0; 0; 0; 9; 1] [2; 4; 3; 9; 1] 12);
      [exact Hc|lia].
  - apply (decompress_compress_any_length
             [0; 4; 0; 0; 0; 0; 0; 0; 9; 1] [2; 4; 3; 9; 1] 9);
      [exact Hc|lia].
Defined.

(** X2: bytes that follow a compressed packet in the buffer are ignored:
    with a requested length of at most the source's, the source's first
    bytes come back whatever follows. *)
Theorem decompress_ignores_trailing_bytes (b c junk : list Z) (n : nat) :
  compressPacket b = Ok c → (n <= length b)%nat → (n <= 1024)%nat →
  decompressPacket (c ++ junk) n = Ok (take n b).
Proof.
  rewrite compressPacket_spec. case_decide; [|done].
  intros [= <-] Hn Hmax. by apply decompressPacket_take.
Qed.

Lemma decompress_ignores_trailing_bytes_witness :
  compressPacket [0; 4; 0; 0; 0; 0; 0; 0; 9; 1] = Ok [2; 4; 3; 9; 1]
  ∧ decompressPacket ([2; 4; 3; 9; 1] ++ [255; 255; 7]) 10
    = Ok [0; 4; 0; 0; 0; 0; 0; 0; 9; 1].
Proof.
  assert (compressPacket [0; 4; 0; 0; 0; 0; 0; 0; 9; 1] = Ok [2; 4; 3; 9; 1])
    as Hc by (vm_compute; reflexivity).
  split; [exact Hc|].
  apply (decompress_ignores_trailing_bytes
           [0; 4; 0; 0; 0; 0; 0; 0; 9; 1] [2; 4; 3; 9; 1] [255; 255; 7] 10);
    [exact Hc|simpl; lia|lia].
Defined.

(** X3: a mask byte that follows whole encoded groups and, within the
    bytes still requested, has more set bits than literals behind it makes
    [decompressPacket] throw "truncated compressed data". *)
Theorem decompress_rejects_missing_literal
    (pre c lits : list Z) (mask : Z) (n : nat) :
  compressPacket pre = Ok c →
  (length pre `mod` 8 = 0)%nat → (length pre < n)%nat → (n <= 1024)%nat →
  (length lits
   < length (filter (λ b, Z.testbit mask b = true)
               (take (n - length pre) (bits_from 0))))%nat →
  decompressPacket (c ++ mask :: lits) n = Throw truncated_msg.
Proof.
  rewrite compressPacket_spec. case_decide; [|done].
  intros [= <-]. apply decompressPacket_missing_literal.
Qed.

Lemma decompress_rejects_missing_literal_witness :
  compressPacket [1; 0; 0; 0; 0; 0; 0; 0] = Ok [1; 1]
  ∧ decompressPacket ([1; 1] ++ 5 :: [9]) 16 = Throw truncated_msg.
Proof.
  assert (compressPacket [1; 0; 0; 0; 0; 0; 0; 0] = Ok [1; 1]) as Hc
    by (vm_compute; reflexivity).
  split; [exact Hc|].
  apply (decompress_rejects_missing_literal
           [1; 0; 0; 0; 0; 0; 0; 0] [1; 1] [9] 5 16);
    [exact Hc|reflexivity|simpl; lia|lia|vm_compute; lia].
Defined.

Section decompress_outcomes.
Implicit Types (c bits : list Z) (st : dstate).

Lemma unpack_bits_outcome c n mask bits : ∀ st,
  (n <= MAX_SIZE)%nat → loop_outcome (unpack_bits c n mask bits st).
Proof.
  induction bits as [|bit bits IH]; intros st Hn; [done|].
  cbn [unpack_bits]. case_decide; [|done].
  destruct (bool_decide _).
  - case_decide; [done|]. rewrite decide_False by lia.
    unfold at_index.
    destruct (c !! d_readPos st) as [v|] eqn:E.
    + cbn [mbind result_bind]. by apply IH.
    + apply lookup_ge_None in E. lia.
  - rewrite decide_False by lia. by apply IH.
Qed.

Lemma decompress_loop_outcome c n fuel : ∀ st,
  (n <= MAX_SIZE)%nat → loop_outcome (decompress_loop fuel c n st).
Proof.
  induction fuel as [|fuel IH]; intros st Hn.
  - simpl. by case_decide.
  - rewrite decompress_loop_S. case_decide as Hc; [|done].
    rewrite decide_False by lia. unfold at_index.
    destruct (c !! d_readPos st) as [mask|] eqn:E.
    2:{ apply lookup_ge_None in E. lia. }
    cbn [mbind result_bind].
    pose proof (unpack_bits_outcome c n mask (bits_from 0)
                  (DState (d_outBuf st) (S (d_readPos st)) (d_writePos st))
                  Hn) as Hu.
    destruct (unpack_bits _ _ _ _ _) as [st'| |]; [|done..].
    cbn [mbind result_bind]. by apply IH.
Qed.
End decompress_outcomes.

(** X4: on every buffer and every requested length [decompressPacket]
    ends in one of three ways: a buffer of exactly the requested length
    (at most 1024), the length error when more than 1024 bytes are
    requested, or "truncated compressed data".  It never reads outside the
    compressed buffer, and its "unexpected end of compressed data" and
    "output buffer overflow" errors are never thrown. *)
Theorem decompressPacket_outcomes (c : list Z) (n : nat) :
  match decompressPacket c n with
  | Ok out => length out = n ∧ (n <= 1024)%nat
  | Throw msg => (msg = bad_length_msg ∧ (1024 < n)%nat)
                 ∨ (msg = truncated_msg ∧ (n <= 1024)%nat)
  | Undefined _ => False
  end.
Proof.
  unfold decompressPacket, MAX_SIZE. case_decide as Hn; [left; split; [done|lia]|].
  pose proof (decompress_loop_outcome c n (length c)
                (DState (replicate 1024 0) 0 0)) as Hl.
  unfold MAX_SIZE in Hl. specialize (Hl ltac:(lia)).
  destruct (decompress_loop _ _ _ _) as [st|msg|]; cbn [mbind result_bind].
  - split; [apply length_resize|lia].
  - right. split; [done|lia].
  - done.
Qed.

(** X6: compression loses nothing: two buffers of the same length, at
    most 1024, that compress to the same bytes are equal. *)
Theorem compressPacket_injective (a b c : list Z) :
  length a = length b → (length a <= 1024)%nat →
  compressPacket a = Ok c → compressPacket b = Ok c → a = b.
Proof.
  intros Hlen Ha. rewrite !compressPacket_spec.
  repeat case_decide; try done. intros [= <-] [= Hb].
  pose proof (decompressPacket_zs_encode a Ha) as Hda.
  pose proof (decompressPacket_zs_encode b ltac:(unfold MAX_SIZE; lia)) as Hdb.
  rewrite Hb, <- Hlen in Hdb. rewrite Hda in Hdb. by injection Hdb.
Qed.

Lemma compressPacket_injective_witness : [0; 3; 0] = [0; 3; 0].
Proof.
  apply (compressPacket_injective [0; 3; 0] [0; 3; 0] [2; 3]);
    [reflexivity|simpl; lia|vm_compute; reflexivity..].
Defined.

(** X7: every buffer of at most 910 bytes compresses: the output has at
    most one byte per input byte plus one mask byte per group of eight,
    which is at most 1024. *)
Theorem compressPacket_small_input (input : list Z) :
  (length input <= 910)%nat →
  ∃ out, compressPacket input = Ok out
         ∧ (length out <= length input + (length input + 7) / 8)%nat.
Proof.
  intros Hn. exists (zs_encode input).
  pose proof (length_filter (λ v : Z, v ≠ 0) input) as Hlits.
  fold (literals input) in Hlits.
  assert (groups (length input) <= 114)%nat as Hg.
  { unfold groups. change 114%nat with (917 / 8)%nat.
    apply Nat.Div0.div_le_mono. lia. }
  rewrite compressPacket_spec, length_zs_encode.
  rewrite decide_True by (unfold MAX_SIZE; lia).
  split; [done|]. unfold groups in *. lia.
Qed.

Lemma compressPacket_small_input_witness :
  ∃ out, compressPacket sample_small_input = Ok out
         ∧ (length out
            <= length sample_small_input
               + (length sample_small_input + 7) / 8)%nat.
Proof.
  apply (compressPacket_small_input sample_small_input).
  vm_compute. lia.
Defined.

(** X8: a buffer of 911 or more bytes without a zero byte is rejected:
    its literals and masks need more than 1024 bytes. *)
Theorem compressPacket_dense_input (input : list Z) :
  Forall (λ v, v ≠ 0) input → (911 <= length input)%nat →
  compressPacket input = Throw overflow_msg.
Proof.
  intros Hnz Hn.
  assert (literals input = input) as Hlits.
  { unfold literals. clear Hn.
    induction Hnz as [|v l Hv _ IH]; [done|].
    rewrite filter_cons, decide_True by done. by rewrite IH. }
  assert (114 <= groups (length input))%nat as Hg.
  { unfold groups. change 114%nat with (918 / 8)%nat.
    apply Nat.Div0.div_le_mono. lia. }
  rewrite compressPacket_spec, length_zs_encode, Hlits.
  by rewrite decide_False by (unfold MAX_SIZE; lia).
Qed.

Lemma compressPacket_dense_input_witness :
  compressPacket sample_dense_input = Throw overflow_msg.
Proof.
  apply (compressPacket_dense_input sample_dense_input).
  - apply Forall_replicate. lia.
  - vm_compute. lia.
Defined.

(* ================================================================= *)
(** * Further properties of the wire codec *)

(** ** Little-endian integers *)

Section little_endian.
Implicit Types (buffer : list Z) (v value : Z) (w i : nat).

(** Adding byte [i] of [v] to the low [i] bytes of [v] gives its low
    [i + 1] bytes. *)
Lemma lor_next_byte v i :
  Z.lor (v mod 2 ^ (8 * Z.of_nat i))
        (Z.shiftl (Z.land (Z.shiftr v (Z.of_nat i * 8)) 255) (Z.of_nat i * 8))
  = v mod 2 ^ (8 * Z.of_nat (S i)).
Proof.
  apply Z.bits_inj'. intros n Hn.
  rewrite Z.lor_spec, !Z.testbit_mod_pow2, Z.shiftl_spec by lia.
  change 255 with (Z.ones 8). rewrite Z.land_ones by lia.
  destruct (decide (n < 8 * Z.of_nat i)) as [Hlt|Hge].
  - rewrite (Z.testbit_neg_r _ (n - _)) by lia.
    rewrite orb_false_r.
    by rewrite (proj2 (Z.ltb_lt _ _)), (proj2 (Z.ltb_lt _ _)) by lia.
  - rewrite Z.testbit_mod_pow2, Z.shiftr_spec by lia.
    replace (n - Z.of_nat i * 8 + Z.of_nat i * 8) with n by lia.
    rewrite (proj2 (Z.ltb_ge _ _)) by lia. simpl.
    destruct (decide (n < 8 * Z.of_nat (S i))).
    + by rewrite (proj2 (Z.ltb_lt _ _)), (proj2 (Z.ltb_lt _ _)) by lia.
    + by rewrite (proj2 (Z.ltb_ge _ _)), (proj2 (Z.ltb_ge _ _)) by lia.
Qed.

Lemma mod_pow2_le v (a b : Z) :
  0 <= a <= b → (v mod 2 ^ a) mod 2 ^ b = v mod 2 ^ a.
Proof.
  intros H. apply Z.mod_small.
  pose proof (Z.mod_pos_bound v (2 ^ a) ltac:(apply Z.pow_pos_nonneg; lia)).
  pose proof (Z.pow_le_mono_r 2 a b ltac:(lia) ltac:(lia)). lia.
Qed.

(** Reading the bytes [le_bytes w v] back. *)
Lemma readLittleEndian_loop_le_bytes w buffer offset v : ∀ count i,
  (i + count = w)%nat →
  (∀ j, (j < w)%nat →
        buffer !! (offset + j)%nat
        = Some (Z.land (Z.shiftr v (Z.of_nat j * 8)) 255)) →
  readLittleEndian_loop w buffer offset i count (v mod 2 ^ (8 * Z.of_nat i))
  = v mod 2 ^ (8 * Z.of_nat w).
Proof.
  induction count as [|count IH]; intros i Hi Hb.
  - simpl. by replace i with w by lia.
  - cbn [readLittleEndian_loop]. rewrite Hb by lia.
    rewrite lor_next_byte, mod_pow2_le by lia.
    apply IH; [lia|done].
Qed.

Lemma lookup_splice_inside buffer offset bs j :
  (offset + length bs <= length buffer)%nat → (j < length bs)%nat →
  splice buffer offset bs !! (offset + j)%nat = bs !! j.
Proof.
  intros Hfit Hj. unfold splice.
  rewrite lookup_app_r by (rewrite length_take; lia).
  rewrite length_take, Nat.min_l by lia.
  replace (offset + j - offset)%nat with j by lia.
  by rewrite lookup_app_l.
Qed.

Lemma lookup_splice_outside buffer offset bs j :
  (offset + length bs <= length buffer)%nat →
  (j < offset ∨ offset + length bs <= j)%nat →
  splice buffer offset bs !! j = buffer !! j.
Proof.
  intros Hfit Hj. unfold splice. destruct Hj as [Hj|Hj].
  - rewrite lookup_app_l by (rewrite length_take; lia).
    by rewrite lookup_take_lt.
  - rewrite lookup_app_r by (rewrite length_take; lia).
    rewrite length_take, Nat.min_l by lia.
    rewrite lookup_app_r by lia. rewrite lookup_drop. f_equal. lia.
Qed.

Lemma lookup_le_bytes w v j :
  (j < w)%nat →
  le_bytes w v !! j = Some (Z.land (Z.shiftr v (Z.of_nat j * 8)) 255).
Proof.
  intros Hj. unfold le_bytes. rewrite list_lookup_fmap.
  by rewrite lookup_seq_lt.
Qed.

(** The value stays a [w]-byte unsigned integer through the loop. *)
Lemma readLittleEndian_loop_range w buffer offset : ∀ count i value,
  0 <= value < 2 ^ (8 * Z.of_nat w) →
  0 <= readLittleEndian_loop w buffer offset i count value
    < 2 ^ (8 * Z.of_nat w).
Proof.
  induction count as [|count IH]; intros i value Hv; [done|].
  cbn [readLittleEndian_loop]. apply IH.
  destruct (buffer !! _); [|done].
  apply Z.mod_pos_bound. apply Z.pow_pos_nonneg; lia.
Qed.

(** A byte past the end of the buffer reads like a zero byte. *)
Lemma readLittleEndian_loop_zeros w buffer k offset : ∀ count i value,
  0 <= value < 2 ^ (8 * Z.of_nat w) →
  readLittleEndian_loop w (buffer ++ replicate k 0) offset i count value
  = readLittleEndian_loop w buffer offset i count value.
Proof.
  induction count as [|count IH]; intros i value Hv; [done|].
  cbn [readLittleEndian_loop].
  destruct (buffer !! (offset + i)%nat) as [b|] eqn:E.
  - rewrite (lookup_app_l_Some _ _ _ _ E). apply IH.
    apply Z.mod_pos_bound. apply Z.pow_pos_nonneg; lia.
  - apply lookup_ge_None in E. rewrite lookup_app_r by done.
    destruct (replicate k 0 !! _) as [z|] eqn:Ez; [|by apply IH].
    apply lookup_replicate in Ez as [-> _].
    rewrite Z.shiftl_0_l, Z.lor_0_r, Z.mod_small by done. by apply IH.
Qed.
End little_endian.

(** X9: an integer written by [writeLittleEndian] inside the buffer is
    read back by [readLittleEndian] at the same offset, reduced modulo
    [2^(8*sizeof(T))]; the write changes no other byte and not the size. *)
Theorem read_after_write
    (sizeofT : nat) (buffer : list Z) (offset : nat) (value : Z) :
  (offset + sizeofT <= length buffer)%nat →
  ∃ buffer',
    writeLittleEndian sizeofT buffer offset value = Ok buffer'
    ∧ readLittleEndian sizeofT buffer' offset
      = value mod 2 ^ (8 * Z.of_nat sizeofT)
    ∧ length buffer' = length buffer
    ∧ ∀ j, (j < offset ∨ offset + sizeofT <= j)%nat →
           buffer' !! j = buffer !! j.
Proof.
  intros Hfit. exists (splice buffer offset (le_bytes sizeofT value)).
  assert (length (le_bytes sizeofT value) = sizeofT) as Hlen
    by apply length_le_bytes.
  split_and!.
  - unfold writeLittleEndian.
    rewrite writeLittleEndian_loop_spec by lia. by rewrite Nat.add_0_r.
  - unfold readLittleEndian.
    rewrite <- (Z.mod_1_r value) at 1.
    apply (readLittleEndian_loop_le_bytes _ _ _ _ sizeofT 0); [done|].
    intros j Hj. rewrite lookup_splice_inside by lia.
    by apply lookup_le_bytes.
  - apply length_splice. lia.
  - intros j Hj. apply lookup_splice_outside; lia.
Qed.

Lemma read_after_write_witness :
  ∃ buffer',
    writeLittleEndian 4 [9; 9; 9; 9; 9; 9] 1 305419896 = Ok buffer'
    ∧ readLittleEndian 4 buffer' 1 = 305419896 mod 2 ^ (8 * Z.of_nat 4)
    ∧ length buffer' = length [9; 9; 9; 9; 9; 9]
    ∧ ∀ j, (j < 1 ∨ 1 + 4 <= j)%nat →
           buffer' !! j = [9; 9; 9; 9; 9; 9] !! j.
Proof.
  apply (read_after_write 4 [9; 9; 9; 9; 9; 9] 1 305419896). simpl. lia.
Defined.

(** X10: [readLittleEndian] never reads outside the buffer: bytes of the
    integer that lie past the end count as zero, so the result is that of
    the zero-padded buffer, and it is always below [2^(8*sizeof(T))]. *)
Theorem readLittleEndian_past_end
    (sizeofT : nat) (buffer : list Z) (offset k : nat) :
  readLittleEndian sizeofT (buffer ++ replicate k 0) offset
  = readLittleEndian sizeofT buffer offset
  ∧ 0 <= readLittleEndian sizeofT buffer offset < 2 ^ (8 * Z.of_nat sizeofT).
Proof.
  assert (0 <= 0 < 2 ^ (8 * Z.of_nat sizeofT)) as H0
    by (split; [done|apply Z.pow_pos_nonneg; lia]).
  split.
  - by apply readLittleEndian_loop_zeros.
  - by apply readLittleEndian_loop_range.
Qed.

(** ** Parsing *)

Section read_words.
Implicit Types (buffer v : list Z).

Lemma words_at_S buffer offset k :
  words_at buffer offset (S k)
  = readLittleEndian 4 buffer offset :: words_at buffer (offset + 4) k.
Proof.
  unfold words_at. cbn [seq fmap list_fmap].
  rewrite Nat.mul_0_r, Nat.add_0_r. f_equal.
  rewrite <- fmap_S_seq, <- list_fmap_compose.
  apply list_fmap_ext. intros _ i _. simpl. f_equal. lia.
Qed.

(** The frame loops read as many words as are announced and fit. *)
Lemma read_words_spec buffer : ∀ count offset v,
  let k := Nat.min count ((length buffer - offset) / 4) in
  read_words buffer count offset v
  = (v ++ words_at buffer offset k, (offset + 4 * k)%nat).
Proof.
  induction count as [|count IH]; intros offset v k.
  - subst k. simpl. by rewrite app_nil_r, Nat.add_0_r.
  - cbn [read_words]. case_decide as Hfit.
    + rewrite IH.
      assert ((length buffer - offset) / 4
              = S ((length buffer - (offset + 4)) / 4))%nat as Hdiv.
      { replace (length buffer - offset)%nat
          with (length buffer - (offset + 4) + 1 * 4)%nat by lia.
        rewrite Nat.div_add by lia. lia. }
      subst k. rewrite Hdiv, <- Nat.succ_min_distr.
      rewrite words_at_S, <- app_assoc. simpl. f_equal. lia.
    + rewrite IH.
      assert ((length buffer - offset) / 4 = 0)%nat as Hdiv
        by (apply Nat.div_small; lia).
      subst k. rewrite Hdiv, !Nat.min_0_r. done.
Qed.
End read_words.

(** X11: an [Input] datagram of at least 15 bytes parses to its fixed
    fields and to as many frame words, then checksum words, as are both
    announced and present: words that do not fit are left out without an
    error, so [inputPerFrame] can be shorter than [numFrames]. *)
Theorem parse_Input (buffer : list Z) :
  (15 <= length buffer)%nat → buffer !! 0%nat = Some 2 →
  ∃ numFrames numChecksums,
    buffer !! 13%nat = Some numFrames
    ∧ buffer !! 14%nat = Some numChecksums
    ∧ let kf := Nat.min (Z.to_nat numFrames) ((length buffer - 15) / 4) in
      let kc := Nat.min (Z.to_nat numChecksums)
                        ((length buffer - (15 + 4 * kf)) / 4) in
      parseClientMessage buffer
      = Ok (Some (ClientMessageComplete.mk
                    (ClientHeader.mk Input (readLittleEndian 4 buffer 1))
                    (C_Input
                       (InputPayload.mk
                          (readLittleEndian 4 buffer 5)
                          (readLittleEndian 4 buffer 9)
                          numFrames numChecksums
                          (words_at buffer 15 kf)
                          (words_at buffer (15 + 4 * kf) kc))))).
Proof.
  intros Hlen Ht.
  destruct (buffer !! 13%nat) as [nf|] eqn:Hnf.
  2:{ apply lookup_ge_None in Hnf. lia. }
  destruct (buffer !! 14%nat) as [nc|] eqn:Hnc.
  2:{ apply lookup_ge_None in Hnc. lia. }
  exists nf, nc. split_and!; [done..|].
  intros kf kc. unfold parseClientMessage, HEADER_SIZE.
  rewrite decide_False by lia.
  unfold at_index. rewrite Ht. cbn [mbind result_bind client_type_of Nat.add].
  rewrite Hnf. cbn [mbind result_bind]. rewrite Hnc. cbn [mbind result_bind].
  rewrite !read_words_spec. done.
Qed.

Lemma parse_Input_witness :
  ∃ numFrames numChecksums,
    sample_short_input !! 13%nat = Some numFrames
    ∧ sample_short_input !! 14%nat = Some numChecksums
    ∧ let kf := Nat.min (Z.to_nat numFrames)
                        ((length sample_short_input - 15) / 4) in
      let kc := Nat.min (Z.to_nat numChecksums)
                        ((length sample_short_input - (15 + 4 * kf)) / 4) in
      parseClientMessage sample_short_input
      = Ok (Some (ClientMessageComplete.mk
                    (ClientHeader.mk Input
                       (readLittleEndian 4 sample_short_input 1))
                    (C_Input
                       (InputPayload.mk
                          (readLittleEndian 4 sample_short_input 5)
                          (readLittleEndian 4 sample_short_input 9)
                          numFrames numChecksums
                          (words_at sample_short_input 15 kf)
                          (words_at sample_short_input (15 + 4 * kf) kc))))).
Proof.
  apply (parse_Input sample_short_input); [vm_compute; lia|reflexivity].
Defined.

(** X12: from 5 bytes on, [parseClientMessage] stays inside the buffer
    exactly when the buffer has the minimal length of its type: 15 bytes
    for [Input], 11 for [MatchResult], 6 for the types whose payload
    starts with a single byte, 5 for the others. *)
Theorem parseClientMessage_defined_iff (buffer : list Z) (type_byte : Z) :
  (5 <= length buffer)%nat → buffer !! 0%nat = Some type_byte →
  (∃ r, parseClientMessage buffer = Ok r)
  ↔ (min_length type_byte <= length buffer)%nat.
Proof.
  intros Hlen Ht. unfold parseClientMessage, HEADER_SIZE, min_length.
  rewrite decide_False by lia.
  unfold at_index. rewrite Ht. cbn [mbind result_bind Nat.add].
  destruct (client_type_of type_byte) as [[]|];
    repeat match goal with
    | |- context [buffer !! ?i] =>
        let E := fresh "E" in
        destruct (buffer !! i) eqn:E;
        [apply lookup_lt_Some in E|apply lookup_ge_None in E];
        cbn [mbind result_bind]
    | |- context [read_words ?b ?n ?o ?v] => destruct (read_words b n o v)
    | |- context [readString ?b ?o ?n] => destruct (readString b o n)
    end;
    (split; [intros [r Hr]; first [lia|done]
            |intros Hmin; first [by eexists|lia]]).
Qed.

Lemma parseClientMessage_defined_iff_witness :
  (∃ r, parseClientMessage [4; 0; 0; 0; 0; 2; 1; 0; 0; 0; 1] = Ok r)
  ↔ (min_length 4 <= length [4; 0; 0; 0; 0; 2; 1; 0; 0; 0; 1])%nat.
Proof.
  apply (parseClientMessage_defined_iff [4; 0; 0; 0; 0; 2; 1; 0; 0; 0; 1] 4);
    [simpl; lia|reflexivity].
Defined.

(** X13: whenever a message is returned, its type is the one the first
    byte denotes, its payload is the variant of that type, and its
    sequence number is the little-endian word in bytes 1 to 4. *)
Theorem parseClientMessage_header
    (buffer : list Z) (msg : ClientMessageComplete.t) :
  parseClientMessage buffer = Ok (Some msg) →
  ∃ type_byte,
    buffer !! 0%nat = Some type_byte
    ∧ client_type_of type_byte
      = Some (ClientHeader.type (ClientMessageComplete.header msg))
    ∧ payload_type (ClientMessageComplete.payload msg)
      = ClientHeader.type (ClientMessageComplete.header msg)
    ∧ ClientHeader.sequence (ClientMessageComplete.header msg)
      = readLittleEndian 4 buffer 1.
Proof.
  unfold parseClientMessage, HEADER_SIZE. case_decide as Hsz; [done|].
  unfold at_index.
  destruct (buffer !! 0%nat) as [t|] eqn:Ht; [|done].
  cbn [mbind result_bind Nat.add]. intros Hp. exists t. split; [done|].
  destruct (client_type_of t) as [[]|]; [..|done];
    repeat match type of Hp with
    | context [buffer !! ?i] =>
        destruct (buffer !! i); cbn [mbind result_bind] in Hp; [|done]
    | context [read_words ?b ?n ?o ?v] => destruct (read_words b n o v)
    | context [readString ?b ?o ?n] => destruct (readString b o n)
    end;
    injection Hp as <-; done.
Qed.

Lemma parseClientMessage_header_witness :
  ∃ type_byte,
    [6; 1; 2; 0; 0; 3] !! 0%nat = Some type_byte
    ∧ client_type_of type_byte = Some Disconnecting
    ∧ payload_type (C_Disconnecting (DisconnectingPayload.mk 3))
      = Disconnecting
    ∧ 513 = readLittleEndian 4 [6; 1; 2; 0; 0; 3] 1.
Proof.
  apply (parseClientMessage_header [6; 1; 2; 0; 0; 3]
           (ClientMessageComplete.mk (ClientHeader.mk Disconnecting 513)
              (C_Disconnecting (DisconnectingPayload.mk 3)))).
  reflexivity.
Defined.

(** X14: a buffer that [decompressPacket] returns for a requested length
    of at least 15, such as the default 1024, is always long enough for
    [parseClientMessage]: parsing it reads no byte past the end. *)
Theorem decompress_then_parse (c d : list Z) (n : nat) :
  (15 <= n)%nat → decompressPacket c n = Ok d →
  ∃ r, parseClientMessage d = Ok r.
Proof.
  intros Hn Hd. apply parseClientMessage_defined.
  apply decompressPacket_length in Hd. lia.
Qed.

Lemma decompress_then_parse_witness :
  ∃ r, parseClientMessage (resize 1024 0 [2; 7]) = Ok r.
Proof.
  apply (decompress_then_parse [3; 2; 7] (resize 1024 0 [2; 7]) 1024);
    [lia|vm_compute; reflexivity].
Defined.

Section parse_padding.
Implicit Types (buffer extra v : list Z).

Lemma readLittleEndian_loop_app w buffer extra offset : ∀ count i value,
  (offset + i + count <= length buffer)%nat →
  readLittleEndian_loop w (buffer ++ extra) offset i count value
  = readLittleEndian_loop w buffer offset i count value.
Proof.
  induction count as [|count IH]; intros i value H; [done|].
  cbn [readLittleEndian_loop].
  rewrite lookup_app_l by lia. apply IH. lia.
Qed.

Lemma readLittleEndian_app w buffer extra offset :
  (offset + w <= length buffer)%nat →
  readLittleEndian w (buffer ++ extra) offset
  = readLittleEndian w buffer offset.
Proof. intros H. apply readLittleEndian_loop_app. lia. Qed.

Lemma at_index_app buffer extra i :
  (i < length buffer)%nat →
  at_index (buffer ++ extra) i = at_index buffer i
  ∧ ∃ b, at_index buffer i = Ok b ∧ buffer !! i = Some b.
Proof.
  intros H. unfold at_index. rewrite lookup_app_l by done.
  destruct (buffer !! i) as [b|] eqn:E; [by eauto|].
  apply lookup_ge_None in E. lia.
Qed.

Lemma words_at_app buffer extra offset k :
  (offset + 4 * k <= length buffer)%nat →
  words_at (buffer ++ extra) offset k = words_at buffer offset k.
Proof.
  intros H. unfold words_at. apply list_fmap_ext.
  intros j i Hi. apply lookup_seq in Hi as [-> Hi].
  apply readLittleEndian_app. lia.
Qed.

Lemma read_words_full buffer count offset v :
  (offset + 4 * count <= length buffer)%nat →
  read_words buffer count offset v
  = (v ++ words_at buffer offset count, (offset + 4 * count)%nat).
Proof.
  intros H. rewrite read_words_spec.
  rewrite Nat.min_l; [done|].
  apply Nat.div_le_lower_bound; lia.
Qed.

Lemma readString_app buffer extra offset maxLen :
  (offset + maxLen <= length buffer)%nat →
  readString (buffer ++ extra) offset maxLen
  = readString buffer offset maxLen.
Proof.
  intros H. rewrite !readString_spec.
  rewrite drop_app_le by lia.
  by rewrite take_app_le by (rewrite length_drop; lia).
Qed.
End parse_padding.

(** X15: bytes that follow a whole message do not change what is parsed:
    when the buffer holds the full message of its type (for [Input] and
    [PlayerInputAck], with all the words its count bytes announce),
    appending anything to it gives the same result. *)
Theorem parseClientMessage_ignores_padding (buffer extra : list Z) :
  (full_length buffer <= length buffer)%nat →
  parseClientMessage (buffer ++ extra) = parseClientMessage buffer.
Proof.
  unfold full_length, parseClientMessage, HEADER_SIZE. intros Hfull.
  rewrite length_app.
  assert (5 <= length buffer)%nat as H5.
  { destruct (buffer !! 0%nat ≫= client_type_of) as [[]|]; lia. }
  rewrite !decide_False by lia.
  destruct (at_index_app buffer extra 0 ltac:(lia)) as (-> & t & -> & Ht).
  rewrite Ht in Hfull. cbn [mbind option_bind result_bind Nat.add] in *.
  destruct (client_type_of t) as [[]|]; [..|done].
  - rewrite !readLittleEndian_app by lia.
    do 3 (rewrite (readString_app buffer) by lia;
          rewrite (readString_spec buffer); cbv beta iota).
    done.
  - destruct (at_index_app buffer extra 13 ltac:(lia)) as (-> & nf & -> & Hnf).
    destruct (at_index_app buffer extra 14 ltac:(lia)) as (-> & nc & -> & Hnc).
    rewrite Hnf, Hnc in Hfull. cbn [default from_option id] in Hfull.
    cbn [mbind result_bind].
    rewrite !readLittleEndian_app by lia.
    do 2 (rewrite (read_words_full (buffer ++ extra))
            by (rewrite length_app; lia);
          rewrite (read_words_full buffer) by lia; cbv beta iota).
    by rewrite !words_at_app by lia.
  - destruct (at_index_app buffer extra 5 ltac:(lia)) as (-> & np & -> & Hnp).
    rewrite Hnp in Hfull. cbn [default from_option id] in Hfull.
    cbn [mbind result_bind].
    rewrite (read_words_full (buffer ++ extra)) by (rewrite length_app; lia).
    rewrite (read_words_full buffer) by lia. cbv beta iota.
    rewrite !readLittleEndian_app by lia.
    by rewrite !words_at_app by lia.
  - destruct (at_index_app buffer extra 5 ltac:(lia)) as (-> & a & -> & _).
    destruct (at_index_app buffer extra 10 ltac:(lia)) as (-> & b & -> & _).
    cbn [mbind result_bind]. by rewrite !readLittleEndian_app by lia.
  - by rewrite !readLittleEndian_app by lia.
  - destruct (at_index_app buffer extra 5 ltac:(lia)) as (-> & a & -> & _).
    by rewrite !readLittleEndian_app by lia.
  - destruct (at_index_app buffer extra 5 ltac:(lia)) as (-> & a & -> & _).
    by rewrite !readLittleEndian_app by lia.
  - destruct (at_index_app buffer extra 5 ltac:(lia)) as (-> & a & -> & _).
    by rewrite !readLittleEndian_app by lia.
Qed.

Lemma parseClientMessage_ignores_padding_witness :
  parseClientMessage ([3; 1; 0; 0; 0; 1; 8; 0; 0; 0; 4; 0; 0; 0] ++ [7; 7])
  = parseClientMessage [3; 1; 0; 0; 0; 1; 8; 0; 0; 0; 4; 0; 0; 0].
Proof.
  apply (parseClientMessage_ignores_padding
           [3; 1; 0; 0; 0; 1; 8; 0; 0; 0; 4; 0; 0; 0] [7; 7]).
  vm_compute. lia.
Defined.

(** ** Every group's mask *)

(** X5: the mask convention on every group of every input: in the bytes
    [compressPacket] returns, the mask of group [k] stands after the [k]
    earlier masks and the non-zero bytes of the earlier groups, and its
    bit [i] (bit 0 the least significant) is set iff byte [8 k + i] of
    the input is non-zero. *)
Theorem compressPacket_group_mask (input out : list Z) (k i : nat) :
  compressPacket input = Ok out →
  (8 * k < length input)%nat → (i < 8)%nat →
  ∃ mask,
    out !! (k + length (literals (take (8 * k) input)))%nat = Some mask
    ∧ (Z.testbit mask (Z.of_nat i) = true
       ↔ ∃ v, input !! (8 * k + i)%nat = Some v ∧ v ≠ 0).
Proof.
  intros Hc Hk Hi. rewrite compressPacket_spec in Hc.
  case_decide; [|done]. injection Hc as <-.
  assert (length (take (8 * k) input) = (8 * k)%nat) as Hpre
    by (rewrite length_take; lia).
  assert (zs_encode input
          = zs_encode (take (8 * k) input) ++ zs_encode (drop (8 * k) input))
    as ->.
  { rewrite <- zs_encode_app
      by (rewrite Hpre, Nat.mul_comm; apply Nat.Div0.mod_mul).
    by rewrite take_drop. }
  assert (groups (8 * k) = k) as Hg
    by (symmetry; apply Nat.div_unique with 7%nat; lia).
  rewrite lookup_app_r; rewrite length_zs_encode, Hpre, Hg; [|lia].
  rewrite Nat.sub_diag.
  rewrite zs_encode_step
    by (intros E; apply (f_equal length) in E;
        rewrite length_drop in E; simpl in E; lia).
  eexists. split; [done|].
  rewrite testbit_group_mask by done.
  by rewrite lookup_take_lt, lookup_drop by done.
Qed.

Lemma compressPacket_group_mask_witness :
  ∃ mask,
    [68; 1; 2; 1; 3]
      !! Nat.add 1
           (length (literals
                      (take 8
                         [0; 0; 1; 0; 0; 0; 2; 0; 3; 0; 0; 0; 0; 0; 0; 0])))
    = Some mask
    ∧ (Z.testbit mask 0 = true
       ↔ ∃ v, [0; 0; 1; 0; 0; 0; 2; 0; 3; 0; 0; 0; 0; 0; 0; 0] !! 8%nat
              = Some v ∧ v ≠ 0).
Proof.
  apply (compressPacket_group_mask
           [0; 0; 1; 0; 0; 0; 2; 0; 3; 0; 0; 0; 0; 0; 0; 0]
           [68; 1; 2; 1; 3] 1 0).
  - vm_compute. reflexivity.
  - simpl. lia.
  - lia.
Defined.

(* ================================================================= *)
(** * Further properties of the serialiser *)

(** ** Messages of a fixed layout *)

Section fixed_layout.
Implicit Types (payload : ServerMessageVariant) (maxPlayers : Z).

Lemma emits_fixed payload maxPlayers bs :
  fixed_payload payload = Some bs →
  emits (write_payload payload maxPlayers) bs.
Proof.
  destruct payload; cbn [fixed_payload]; intros Hbs; try discriminate Hbs;
    apply (inj Some) in Hbs; subst bs; cbn [write_payload].
  - change ([?a; ?b; ?c] ++ ?l ++ [?d; ?e])
      with ([a] ++ [b] ++ [c] ++ l ++ [d] ++ [e]).
    do 3 (apply emits_bind; [apply emits_put_u8|]).
    apply emits_bind; [apply emits_put_le|].
    apply emits_bind; apply emits_put_u8.
  - apply emits_put_le.
  - apply emits_bind; apply emits_put_le.
  - apply emits_bind; apply emits_put_le.
  - apply emits_put_le.
  - change ([?a; ?b] ++ ?l) with ([a] ++ [b] ++ l).
    do 2 (apply emits_bind; [apply emits_put_u8|]).
    apply emits_bind; apply emits_put_le.
  - apply emits_put_le.
  - apply emits_nil.
Qed.

Lemma compute_size_fixed payload maxPlayers bs :
  fixed_payload payload = Some bs →
  compute_size payload maxPlayers = Ok (5 + Z.of_nat (length bs)).
Proof.
  destruct payload; cbn [fixed_payload]; intros Hbs; try discriminate Hbs;
    apply (inj Some) in Hbs; subst bs; cbn [compute_size];
    rewrite ?length_app, ?length_le_bytes; cbn [length];
    rewrite ?length_app, ?length_le_bytes; cbn [length];
    try rewrite size_add_small by lia; f_equal; lia.
Qed.
End fixed_layout.

(** X16: the eight messages whose layout does not depend on the number
    of players ([NewConnectionReply], [InputAck], [RequestQualityData],
    [Kick], [ChecksumAck], [PlayerDisconnected], [ChangePort] and the
    empty [StartGame]) are returned as the type byte, the little-endian
    sequence number and the fields in declaration order, whatever
    [maxPlayers] is; the [unknown] field of a [NewConnectionReply] is not
    among them, a zero byte stands in its place. *)
Theorem serialize_fixed_layout
    (header : ServerHeader.t) (payload : ServerMessageVariant)
    (maxPlayers : Z) (bs : list Z) :
  fixed_payload payload = Some bs →
  serializeServerMessage header payload maxPlayers
  = Ok (server_type_value (ServerHeader.type header)
        :: le_bytes 4 (ServerHeader.sequence header) ++ bs).
Proof.
  intros Hbs.
  apply (serializeServerMessage_emits _ _ _ (5 + Z.of_nat (length bs))).
  - by apply compute_size_fixed.
  - by apply emits_fixed.
  - lia.
Qed.

Lemma serialize_fixed_layout_witness :
  serializeServerMessage (ServerHeader.mk NewConnectionReply 258)
    (S_NewConnectionReply sample_reply) 2
  = Ok (1 :: le_bytes 4 258 ++ [1; 2; 0; 16; 14; 0; 0; 0; 0]).
Proof.
  apply (serialize_fixed_layout (ServerHeader.mk NewConnectionReply 258)
           (S_NewConnectionReply sample_reply) 2
           [1; 2; 0; 16; 14; 0; 0; 0; 0]).
  vm_compute. reflexivity.
Defined.

(** ** [PlayersStatus] *)

Section players_status.
Variable p : PlayersStatusPayload.t.
Implicit Types (maxPlayers : Z).

Lemma emits_PlayersStatus maxPlayers :
  Z.of_nat (length (PlayersStatusPayload.status p)) < 2 ^ 31 →
  emits (write_payload (S_PlayersStatus p) maxPlayers)
        (PlayersStatus_bytes p maxPlayers).
Proof.
  intros Hlen. unfold PlayersStatus_bytes. cbn [write_payload].
  change (?x :: ?l) with ([x] ++ l).
  apply emits_bind; [apply emits_put_u8|].
  apply emits_for_each. intros i Hi. apply elem_of_seqZ in Hi.
  eapply (emits_pure _ _ (λ avg, put_le 2 avg)); [|apply emits_put_le].
  apply get_or_spec; [lia|]. by rewrite length_fmap.
Qed.

Lemma length_PlayersStatus_bytes maxPlayers :
  length (PlayersStatus_bytes p maxPlayers)
  = (1 + 2 * Z.to_nat maxPlayers)%nat.
Proof.
  unfold PlayersStatus_bytes. cbn [length].
  rewrite (length_bind_const _ _ 2) by (intros; apply length_le_bytes).
  rewrite length_seqZ. lia.
Qed.
End players_status.

(** X17: a [PlayersStatus] message for [maxPlayers >= 0] players (with
    [maxPlayers * 2] inside the [int] range) has [6 + 2 * maxPlayers]
    bytes: the header, the [numPlayers] byte as given, then one
    little-endian 16-bit [averagePing] per player slot, the slots past the
    end of [status] holding 0. *)
Theorem serialize_PlayersStatus
    (header : ServerHeader.t) (p : PlayersStatusPayload.t) (maxPlayers : Z) :
  0 <= maxPlayers → maxPlayers * 2 <= INT_MAX →
  Z.of_nat (length (PlayersStatusPayload.status p)) < 2 ^ 31 →
  ∃ buf,
    serializeServerMessage header (S_PlayersStatus p) maxPlayers = Ok buf
    ∧ length buf = Z.to_nat (6 + 2 * maxPlayers)
    ∧ take 6 buf = server_type_value (ServerHeader.type header)
                   :: le_bytes 4 (ServerHeader.sequence header)
                   ++ [PlayersStatusPayload.numPlayers p]
    ∧ drop 6 buf = seqZ 0 maxPlayers ≫= λ i, le_bytes 2 (ping_of p i).
Proof.
  intros Hm Hmax Hlen. unfold INT_MAX in Hmax.
  pose proof (length_PlayersStatus_bytes p maxPlayers) as Hbytes.
  eexists. split.
  - apply (serializeServerMessage_emits _ _ _ (6 + maxPlayers * 2)).
    + cbn [compute_size].
      rewrite int_mul_ok by (unfold INT_MIN, INT_MAX; lia).
      rewrite result_bind_Ok.
      rewrite (size_add_small 5 1) by lia.
      by rewrite size_add_small by lia.
    + by apply emits_PlayersStatus.
    + rewrite Hbytes. lia.
  - unfold PlayersStatus_bytes in *. cbn [length] in Hbytes.
    split_and!.
    + cbn [length]. rewrite length_app, length_le_bytes. cbn [length]. lia.
    + change (?t :: ?l ++ ?n :: ?r) with ((t :: l ++ [n]) ++ r).
      rewrite take_app_length'; [done|].
      cbn [length]. rewrite length_app, length_le_bytes. done.
    + change (?t :: ?l ++ ?n :: ?r) with ((t :: l ++ [n]) ++ r).
      rewrite drop_app_length'; [done|].
      cbn [length]. rewrite length_app, length_le_bytes. done.
Qed.

Lemma serialize_PlayersStatus_witness :
  ∃ buf,
    serializeServerMessage (ServerHeader.mk PlayersStatus 7)
      (S_PlayersStatus sample_status) 2 = Ok buf
    ∧ length buf = Z.to_nat (6 + 2 * 2)
    ∧ take 6 buf = server_type_value PlayersStatus
                   :: le_bytes 4 7 ++ [2]
    ∧ drop 6 buf = seqZ 0 2 ≫= λ i, le_bytes 2 (ping_of sample_status i).
Proof.
  apply (serialize_PlayersStatus (ServerHeader.mk PlayersStatus 7)
           sample_status 2).
  - lia.
  - unfold INT_MAX. lia.
  - simpl. lia.
Defined.

(** ** [PlayerInput] *)

(** X18: a [PlayerInput] message for [maxPlayers >= 0] players, built
    from a payload that holds values of its C++ types and whose rift
    converts to the [int16] [r], is the header followed by [numPlayers],
    [maxPlayers] start frames, [maxPlayers] frame counts, the two
    override counters, ping, packet loss, [r], the checksum frame and,
    per player, as many input words as its frame count says; entries the
    vectors do not hold are written as 0.  Its length is
    [20 + 5 * maxPlayers] plus four bytes per input word. *)
Theorem serialize_PlayerInput_layout
    (header : ServerHeader.t) (p : PlayerInputPayload.t)
    (maxPlayers r : Z) :
  wf_PlayerInput p →
  0 <= maxPlayers → maxPlayers * 4 <= INT_MAX →
  float_to_int16
    (float_mul (PlayerInputPayload.rift p) (float_of_int 100)) = Ok r →
  ∃ buf,
    serializeServerMessage header (S_PlayerInput p) maxPlayers = Ok buf
    ∧ buf = server_type_value (ServerHeader.type header)
            :: le_bytes 4 (ServerHeader.sequence header)
            ++ PlayerInput_bytes p maxPlayers r
    ∧ length buf = (20 + 5 * Z.to_nat maxPlayers
                    + 4 * frames_total p maxPlayers)%nat.
Proof.
  intros Hwf Hm Hmax Hr.
  pose proof (length_PlayerInput_bytes p maxPlayers r Hm) as Hbytes.
  eexists. split_and!; [|done|].
  - eapply serializeServerMessage_emits.
    + by apply compute_size_PlayerInput.
    + by apply emits_PlayerInput.
    + rewrite Hbytes. lia.
  - cbn [length]. rewrite length_app, length_le_bytes, Hbytes.
    unfold frames_total. lia.
Qed.

Lemma serialize_PlayerInput_layout_witness :
  ∃ buf,
    serializeServerMessage (ServerHeader.mk PlayerInput 1)
      (S_PlayerInput sample_PlayerInput) 2 = Ok buf
    ∧ buf = server_type_value PlayerInput
            :: le_bytes 4 1 ++ PlayerInput_bytes sample_PlayerInput 2 1
    ∧ length buf = (20 + 5 * Z.to_nat 2
                    + 4 * frames_total sample_PlayerInput 2)%nat.
Proof.
  apply (serialize_PlayerInput_layout (ServerHeader.mk PlayerInput 1)
           sample_PlayerInput 2 1).
  - unfold wf_PlayerInput. simpl. split_and!; [|lia..].
    repeat constructor; lia.
  - lia.
  - unfold INT_MAX. lia.
  - vm_compute. reflexivity.
Defined.

(** ** The cast of the rift out of range *)

Section rift_range.
Implicit Types (m : wstate → result wstate) (why : ub).

Lemma fails_bind m1 m2 bs why room :
  emits m1 bs → fails m2 why room →
  fails (λ s, s' ← m1 s; m2 s') why (length bs + room).
Proof.
  intros H1 H2 buf off H.
  rewrite H1 by lia. cbn [mbind result_bind].
  apply H2. rewrite length_splice by lia. lia.
Qed.

Lemma fails_pure {A} (x : result A) (k : A → wstate → result wstate) why :
  x = Undefined why → fails (λ s, v ← x; k v s) why 0.
Proof. by intros -> buf off _. Qed.

Lemma length_PlayerInput_prefix p maxPlayers :
  length (PlayerInput_prefix p maxPlayers)
  = (9 + 5 * Z.to_nat maxPlayers)%nat.
Proof.
  unfold PlayerInput_prefix.
  rewrite !length_app, !length_le_bytes.
  rewrite (length_bind_const _ _ 4) by (intros; apply length_le_bytes).
  rewrite (length_bind_const _ _ 1) by done.
  rewrite length_seqZ. cbn [length]. lia.
Qed.

Lemma fails_PlayerInput p maxPlayers :
  wf_PlayerInput p →
  float_to_int16
    (float_mul (PlayerInputPayload.rift p) (float_of_int 100))
  = Undefined FloatToIntRange →
  fails (write_payload (S_PlayerInput p) maxPlayers) FloatToIntRange
        (length (PlayerInput_prefix p maxPlayers)).
Proof.
  intros (Hnf & Hsf & Hlnf & Hipf) Hr.
  unfold PlayerInput_prefix. cbn [write_payload].
  rewrite !length_app.
  apply fails_bind; [apply emits_put_u8|].
  apply fails_bind.
  { apply emits_for_each. intros i Hi. apply elem_of_seqZ in Hi.
    eapply (emits_pure _ _ (λ sf, put_le 4 sf));
      [apply get_or_spec; lia|apply emits_put_le]. }
  apply fails_bind.
  { apply emits_for_each. intros i Hi. apply elem_of_seqZ in Hi.
    eapply (emits_pure _ _ (λ nf, put_u8 nf));
      [apply get_or_spec; lia|apply emits_put_u8]. }
  do 3 (apply fails_bind; [apply emits_put_le|]).
  rewrite <- (Nat.add_0_r
                (length (le_bytes 2 (PlayerInputPayload.packetsLossPercent p)))).
  apply fails_bind; [apply emits_put_le|].
  by eapply (fails_pure _
               (λ riftInt s, s ← put_le 2 riftInt s;
                             s ← put_le 4 _ s; for_each _ _ s)).
Qed.
End rift_range.

(** X19: when the integer part of the [float] product [rift * 100] is
    not an [int16] value, or the product is infinite or not a number, the
    cast [static_cast<int16_t>(p.rift * 100)] is reached (the fields
    before it fit the buffer) and its behaviour is undefined: no buffer
    is returned. *)
Theorem serialize_PlayerInput_rift_range
    (header : ServerHeader.t) (p : PlayerInputPayload.t) (maxPlayers : Z) :
  wf_PlayerInput p →
  0 <= maxPlayers → maxPlayers * 4 <= INT_MAX →
  (∀ t, float_trunc
          (float_mul (PlayerInputPayload.rift p) (float_of_int 100)) = Some t →
        ¬ (- 2 ^ 15 <= t <= 2 ^ 15 - 1)) →
  serializeServerMessage header (S_PlayerInput p) maxPlayers
  = Undefined FloatToIntRange.
Proof.
  intros Hwf Hm Hmax Hrange. unfold serializeServerMessage.
  rewrite (compute_size_PlayerInput p Hwf) by done.
  rewrite result_bind_Ok.
  set (size := Z.to_nat _).
  pose proof (length_PlayerInput_prefix p maxPlayers) as Hpre.
  assert (14 + 5 * Z.to_nat maxPlayers <= size)%nat as Hsize
    by (subst size; lia).
  assert (float_to_int16
            (float_mul (PlayerInputPayload.rift p) (float_of_int 100))
          = Undefined FloatToIntRange) as Hcast.
  { unfold float_to_int16.
    destruct (float_trunc _) as [t|] eqn:E; [|done].
    rewrite decide_False; [done|]. by apply Hrange. }
  pose proof (fails_bind _ _ _ _ _
    (emits_put_u8 (server_type_value (ServerHeader.type header)))
    (fails_bind _ _ _ _ _
       (emits_put_le 4 (ServerHeader.sequence header))
       (fails_PlayerInput p maxPlayers Hwf Hcast))) as Hall.
  specialize (Hall (replicate size 0) 0%nat).
  cbv beta in Hall.
  rewrite length_replicate, length_le_bytes, Hpre in Hall.
  specialize (Hall ltac:(cbn [length]; lia)).
  destruct (put_u8 _ (WState (replicate size 0) 0)) as [s1|msg|why];
    cbn [mbind result_bind] in Hall |- *; [|congruence..].
  destruct (put_le 4 _ s1) as [s2|msg|why];
    cbn [mbind result_bind] in Hall |- *; [|congruence..].
  by rewrite Hall.
Qed.

Lemma serialize_PlayerInput_rift_range_witness :
  serializeServerMessage (ServerHeader.mk PlayerInput 1)
    (S_PlayerInput sample_far_rift) 2
  = Undefined FloatToIntRange.
Proof.
  apply (serialize_PlayerInput_rift_range (ServerHeader.mk PlayerInput 1)
           sample_far_rift 2).
  - unfold wf_PlayerInput. simpl. split_and!; [|lia..].
    repeat constructor; lia.
  - lia.
  - unfold INT_MAX. lia.
  - intros t. vm_compute. intros Ht. injection Ht as <-.
    intros [_ Hle]. by apply Hle.
Defined.
